(** * AnimalClassifier.predict: softmax, top-20 selection and keyword buckets

    Shallow embedding of
    [machine-learning/immich_ml/models/animal_recognition/classification.py].

    - Strings are [String.string] (ImageNet labels are ASCII text), [str.lower]
      acts on the letters A-Z, and [k in label] is the substring test.
    - [ANIMAL_BUCKETS] and the local dict [found] are association lists in
      insertion order, as Python dicts iterate.
    - Scores are values of an ordered type ([Score]): after the softmax the code
      only copies and compares them ([<] in the loop, [sorted] on the keys).
      The instance at [Q] runs; the instance at [R] carries the softmax, whose
      arithmetic is read in exact real numbers (float32 rounding, NaN and
      infinities are outside the model). The theorems about [predict] use of
      it what finite float32 values share: the range of the probabilities and
      their order.
    - [np.argsort] is an interface ([ArgSort]): an ascending ranking of the
      indices whose order among equal values is left to the implementation.
    - Exceptions are values of [exn]; a method takes the classifier object and
      hands it back together with its outcome. *)

From Stdlib Require Import List String Ascii Arith Lia Bool Permutation Sorted.
From Stdlib Require Decimal DecimalString.
From Stdlib Require Import QArith Reals Lra.
Import ListNotations.

Local Open Scope nat_scope.
Local Open Scope list_scope.

(** ** Exceptions *)

Inductive exn : Type :=
| IndexError   (* list or array index out of range *)
| ValueError   (* np.max of a zero-size array *)
| TypeError.   (* calling [self.model] while it is [None] *)

Inductive result (A : Type) : Type :=
| Ok (a : A)
| Raise (e : exn).
Arguments Ok {A} a.
Arguments Raise {A} e.

Definition bind {A B : Type} (r : result A) (k : A -> result B) : result B :=
  match r with
  | Ok a => k a
  | Raise e => Raise e
  end.

Notation "x <- r ;; k" := (bind r (fun x => k))
  (at level 61, r at next level, right associativity).

(** [xs[i]] on a Python list or a NumPy vector, for an index [i >= 0]. *)
Definition getitem {A : Type} (xs : list A) (i : nat) : result A :=
  match nth_error xs i with
  | Some x => Ok x
  | None => Raise IndexError
  end.

(** ** Strings *)

Definition lower_ascii (c : ascii) : ascii :=
  let n := nat_of_ascii c in
  if (65 <=? n) && (n <=? 90) then ascii_of_nat (n + 32) else c.

(** [str.lower()]. *)
Fixpoint lower (s : string) : string :=
  match s with
  | EmptyString => EmptyString
  | String c s' => String (lower_ascii c) (lower s')
  end.

(** [k in s] for two strings: [k] occurs in [s] as a substring. *)
Fixpoint contains (k s : string) : bool :=
  String.prefix k s ||
  match s with
  | EmptyString => false
  | String _ s' => contains k s'
  end.

(** [f"class_{i}"]. *)
Definition placeholder (i : nat) : string :=
  String.append "class_" (DecimalString.NilEmpty.string_of_uint (Nat.to_uint i)).

(** [[f"class_{i}" for i in range(n)]]. *)
Definition fallback_labels (n : nat) : list string :=
  map placeholder (seq 0 n).

(** ** The keyword table *)

Definition ANIMAL_BUCKETS : list (string * list string) :=
  [ ("Dog", ["dog"; "labrador"; "retriever"; "shepherd"; "chihuahua"; "pug"; "husky"; "terrier"]);
    ("Cat", ["cat"; "tabby"; "siamese"; "persian"; "lynx"]);
    ("Bird", ["bird"; "parrot"; "jay"; "magpie"; "penguin"; "ostrich"; "eagle"; "owl"; "king penguin"]);
    ("Horse", ["horse"; "zebra"; "donkey"]);
    ("Cattle", ["cow"; "ox"; "bison"; "buffalo"]);
    ("Sheep", ["sheep"; "ram"]);
    ("Goat", ["goat"]);
    ("Pig", ["pig"; "boar"; "hog"]);
    ("Rabbit", ["hare"; "rabbit"]);
    ("Bear", ["bear"; "panda"]);
    ("Feline", ["tiger"; "lion"; "leopard"; "cheetah"; "jaguar"]);
    ("Canine", ["wolf"; "fox"]);
    ("Rodent", ["mouse"; "rat"; "squirrel"; "hamster"]);
    ("Reptile", ["snake"; "lizard"; "crocodile"; "turtle"]);
    ("Fish", ["fish"; "shark"; "ray"; "goldfish"]);
    ("Insect", ["butterfly"; "bee"; "ant"; "dragonfly"; "ladybug"; "beetle"; "mosquito"])
  ]%string.

(** Some keyword of the list occurs in the label: the innermost loop finds a
    hit. *)
Definition any_keyword (keywords : list string) (label : string) : bool :=
  existsb (fun k => contains k label) keywords.

(** ** Scores *)

(** The finite float values under [<]: a strict weak order. *)
Class Score (S : Type) : Type := {
  ltb : S -> S -> bool;
  ltb_irrefl : forall x, ltb x x = false;
  ltb_trans : forall x y z, ltb x y = true -> ltb y z = true -> ltb x z = true;
  geb_trans : forall x y z, ltb x y = false -> ltb y z = false -> ltb x z = false
}.

(** [x <= y], as [not (y < x)]. *)
Definition sle {S : Type} `{Score S} (x y : S) : Prop := ltb y x = false.

(** [np.argsort]: the indices of the vector, in ascending order of value. *)
Class ArgSort (S : Type) `{Score S} : Type := {
  argsort : list S -> list nat;
  argsort_perm : forall v, Permutation (argsort v) (seq 0 (List.length v));
  argsort_sorted : forall v,
    StronglySorted
      (fun i j => forall x y, nth_error v i = Some x -> nth_error v j = Some y -> sle x y)
      (argsort v)
}.

(** ** Dicts in insertion order *)

Section Pipeline.
Context {S : Type} `{ArgSort S}.

Definition dict : Type := list (string * S).

(** [found.get(key)], and [key in found] as [Some _]. *)
Fixpoint dict_get (found : dict) (key : string) : option S :=
  match found with
  | [] => None
  | (k, v) :: rest => if String.eqb k key then Some v else dict_get rest key
  end.

(** [found[key] = v]: an existing key keeps its place, a new one goes last. *)
Fixpoint dict_set (found : dict) (key : string) (v : S) : dict :=
  match found with
  | [] => [(key, v)]
  | (k, w) :: rest =>
      if String.eqb k key then (k, v) :: rest else (k, w) :: dict_set rest key v
  end.

(** Lines 93-94: keep the larger score of the bucket. *)
Definition keep_max (found : dict) (bucket : string) (score : S) : dict :=
  match dict_get found bucket with
  | None => dict_set found bucket score
  | Some old => if ltb old score then dict_set found bucket score else found
  end.

(** Lines 90-94: the loop over the keywords of one bucket. *)
Definition scan_keywords (label : string) (score : S) (bucket : string)
    (keywords : list string) (found : dict) : dict :=
  fold_left
    (fun found k => if contains k label then keep_max found bucket score else found)
    keywords found.

(** Lines 89-94: the loop over the items of the table. *)
Definition scan_table (table : list (string * list string))
    (label : string) (score : S) (found : dict) : dict :=
  fold_left
    (fun found item => scan_keywords label score (fst item) (snd item) found)
    table found.

(** Lines 86-94: the loop over the selected classes. *)
Fixpoint scan_topk (probs : list S) (labels : list string) (topk : list nat)
    (found : dict) : result dict :=
  match topk with
  | [] => Ok found
  | idx :: rest =>
      l <- getitem labels idx ;;
      let label := lower l in
      score <- getitem probs idx ;;
      scan_topk probs labels rest (scan_table ANIMAL_BUCKETS label score found)
  end.

(** ** Sorting *)

(** A stable insertion: [x] goes before the first element that is strictly
    after it in the order [lt], hence after its equals. *)
Fixpoint insert {A : Type} (lt : A -> A -> bool) (x : A) (l : list A) : list A :=
  match l with
  | [] => [x]
  | y :: l' => if lt x y then x :: l else y :: insert lt x l'
  end.

(** [sorted(xs, key=key, reverse=reverse)]: a stable sort that compares keys
    with [<] only; [reverse=True] reverses each comparison and keeps equal
    elements in their original order. *)
Definition sorted {A : Type} (key : A -> S) (reverse : bool) (xs : list A) : list A :=
  let lt := if reverse then (fun x y => ltb (key y) (key x))
            else (fun x y => ltb (key x) (key y)) in
  fold_left (fun acc x => insert lt x acc) xs [].

(** ** Top-K *)

(** [xs[-n:]]. *)
Definition last_n {A : Type} (n : nat) (xs : list A) : list A :=
  skipn (List.length xs - n) xs.

(** Line 84: [np.argsort(probs)[-20:][::-1]]. *)
Definition top20 (probs : list S) : list nat :=
  rev (last_n 20 (argsort probs)).

(** Lines 84-98: from the probabilities and the labels to the result. Each
    entry [(key, score)] stands for [{"label": key, "score": score}]; the key
    function [found.get] reads the value stored with the key. *)
Definition bucketize (probs : list S) (labels : list string) : result (list (string * S)) :=
  let topk := top20 probs in
  found <- scan_topk probs labels topk [] ;;
  Ok (sorted snd true found).

End Pipeline.

(** ** Scores as rationals and as reals *)

Definition Qltb (x y : Q) : bool :=
  match Qcompare x y with
  | Lt => true
  | _ => false
  end.

Lemma Qltb_true (x y : Q) : Qltb x y = true <-> (x < y)%Q.
Proof.
  unfold Qltb. rewrite Qlt_alt.
  destruct (Qcompare x y); split; intro E; congruence.
Qed.

Lemma Qltb_false (x y : Q) : Qltb x y = false <-> (y <= x)%Q.
Proof.
  rewrite <- not_true_iff_false, Qltb_true. split.
  - apply Qnot_lt_le.
  - apply Qle_not_lt.
Qed.

#[export] Instance Score_Q : Score Q.
Proof.
  refine {| ltb := Qltb |}.
  - intro x. apply Qltb_false, Qle_refl.
  - intros x y z. rewrite !Qltb_true. apply Qlt_trans.
  - intros x y z. rewrite !Qltb_false. intros A B. exact (Qle_trans _ _ _ B A).
Defined.

Definition Rltb (x y : R) : bool := if Rlt_dec x y then true else false.

Lemma Rltb_true (x y : R) : Rltb x y = true <-> (x < y)%R.
Proof.
  unfold Rltb. destruct (Rlt_dec x y); split; intro E; congruence.
Qed.

Lemma Rltb_false (x y : R) : Rltb x y = false <-> (y <= x)%R.
Proof.
  rewrite <- not_true_iff_false, Rltb_true. split; intro E; lra.
Qed.

#[export] Instance Score_R : Score R.
Proof.
  refine {| ltb := Rltb |}.
  - intro x. apply Rltb_false. lra.
  - intros x y z. rewrite !Rltb_true. lra.
  - intros x y z. rewrite !Rltb_false. lra.
Defined.

(** ** Softmax (lines 72-73) *)

(** [np.max(v)]; a zero-size vector raises. *)
Definition np_max (v : list R) : result R :=
  match v with
  | [] => Raise ValueError
  | x :: xs => Ok (fold_left Rmax xs x)
  end.

(** [v.sum()]. *)
Definition np_sum (v : list R) : R := fold_left Rplus v 0%R.

Definition softmax (logits : list R) : result (list R) :=
  m <- np_max logits ;;
  let probs := map (fun x => exp (x - m)) logits in
  let total := np_sum probs in
  Ok (map (fun p => (p / total)%R) probs).

(** ** The classifier object *)

Section Classifier.

(** The collaborators of the class, which the repository imports: the image
    helpers of lines 58-66 ([preprocess]), [timm.create_model] followed by
    [eval()] ([create_model]), the forward pass of line 71 under
    [torch.no_grad()] ([forward], a function of the weights and the input), and
    the outcome of the import of line 77 ([IMAGENET_LABELS], [None] when it
    raises). *)
Variables Image Tensor Net : Type.
Variable preprocess : Image -> Tensor.
Variable create_model : string -> result Net.
Variable forward : Net -> Tensor -> list R.
Variable IMAGENET_LABELS : option (list string).
Context {AS : @ArgSort R Score_R}.

Record AnimalClassifier : Type := {
  model_name : string;
  model : option Net;
  input_size : option (nat * nat * nat)
}.

(** A method: it may raise, and it hands back the object as it left it. *)
Definition method (A : Type) : Type :=
  AnimalClassifier -> result A * AnimalClassifier.

(** [__init__]. *)
Definition __init__ (name : string) : AnimalClassifier :=
  {| model_name := name; model := None; input_size := None |}.

(** [_load]. *)
Definition _load : method unit :=
  fun self =>
    match create_model (model_name self) with
    | Raise e => (Raise e, self)
    | Ok net =>
        (Ok tt, {| model_name := model_name self;
                   model := Some net;
                   input_size := Some (3, 224, 224) |})
    end.

(** Lines 75-81: the labels of the model, or the placeholders. *)
Definition get_labels (probs : list R) : list string :=
  match IMAGENET_LABELS with
  | Some labels => labels
  | None => fallback_labels (List.length probs)
  end.

(** [predict]. *)
Definition predict (inputs : Image) : method (list (string * R)) :=
  fun self =>
    (match model self with
     | None => Raise TypeError
     | Some net =>
         let x := preprocess inputs in
         let logits := forward net x in
         probs <- softmax logits ;;
         let labels := get_labels probs in
         bucketize probs labels
     end, self).

(** [configure]. *)
Definition configure : method unit := fun self => (Ok tt, self).

End Classifier.

(** * Properties *)

(** ** Substrings and lower case *)

Definition chars (s : string) : list ascii := list_ascii_of_string s.

Lemma prefix_chars (k s : string) :
  String.prefix k s = true -> incl (chars k) (chars s).
Proof.
  revert k. induction s as [| b s IH]; intros [| a k]; simpl; intros E c Hc;
    try discriminate; try contradiction.
  destruct (ascii_dec a b) as [-> | _]; [| discriminate].
  destruct Hc as [<- | Hc]; [now left | right; now apply (IH k)].
Qed.

Lemma contains_chars (k s : string) :
  contains k s = true -> incl (chars k) (chars s).
Proof.
  induction s as [| b s IH]; cbn [contains]; rewrite orb_true_iff; intros [E | E].
  - now apply prefix_chars.
  - discriminate.
  - now apply prefix_chars.
  - intros c Hc. right. now apply IH.
Qed.

Lemma prefix_lower (k s : string) :
  String.prefix k s = true -> String.prefix (lower k) (lower s) = true.
Proof.
  revert k. induction s as [| b s IH]; intros [| a k]; simpl; intro E;
    try reflexivity; try discriminate.
  destruct (ascii_dec a b) as [-> | _]; [| discriminate].
  destruct (ascii_dec (lower_ascii b) (lower_ascii b)); [now apply IH | congruence].
Qed.

Lemma contains_lower (k s : string) :
  contains k s = true -> contains (lower k) (lower s) = true.
Proof.
  induction s as [| b s IH]; cbn [contains lower]; rewrite !orb_true_iff;
    intros [E | E].
  - left. now apply (prefix_lower k EmptyString).
  - discriminate.
  - left. now apply (prefix_lower k (String b s)).
  - right. now apply IH.
Qed.

(** The characters a placeholder label is written with. *)
Definition placeholder_alphabet : list ascii := chars "class_0123456789".

Lemma digits_alphabet (u : Decimal.uint) :
  incl (chars (DecimalString.NilEmpty.string_of_uint u)) placeholder_alphabet.
Proof.
  induction u; simpl; intros c Hc; try contradiction;
    (destruct Hc as [<- | Hc]; [simpl; tauto | now apply IHu]).
Qed.

Lemma chars_append (s t : string) : chars (String.append s t) = chars s ++ chars t.
Proof. induction s; simpl; [reflexivity | now f_equal]. Qed.

Lemma placeholder_chars (i : nat) : incl (chars (placeholder i)) placeholder_alphabet.
Proof.
  unfold placeholder. rewrite chars_append. apply incl_app.
  - intros c Hc. simpl in *. tauto.
  - apply digits_alphabet.
Qed.

Lemma lower_fixed (s : string) :
  (forall c, In c (chars s) -> lower_ascii c = c) -> lower s = s.
Proof.
  induction s as [| a s IH]; simpl; intro E; [reflexivity |].
  rewrite E by now left. f_equal. apply IH. intros c Hc. apply E. now right.
Qed.

Lemma lower_placeholder (i : nat) : lower (placeholder i) = placeholder i.
Proof.
  apply lower_fixed. intros c Hc. apply placeholder_chars in Hc.
  simpl in Hc.
  repeat (destruct Hc as [<- | Hc]; [reflexivity |]). contradiction.
Qed.

(** A keyword with a character that no placeholder has. *)
Definition foreign_keyword (k : string) : bool :=
  existsb (fun c => negb (existsb (Ascii.eqb c) placeholder_alphabet)) (chars k).

Lemma foreign_keyword_table :
  forallb (fun item => forallb foreign_keyword (snd item)) ANIMAL_BUCKETS = true.
Proof. vm_compute. reflexivity. Qed.

Lemma foreign_keyword_absent (k : string) (i : nat) :
  foreign_keyword k = true -> contains k (placeholder i) = false.
Proof.
  intro F. apply not_true_is_false. intro C.
  apply existsb_exists in F. destruct F as [c [Hc N]].
  apply contains_chars in C. apply C, placeholder_chars in Hc.
  apply negb_true_iff in N. rewrite <- not_true_iff_false in N. apply N.
  apply existsb_exists. exists c. split; [assumption | apply Ascii.eqb_refl].
Qed.

Lemma placeholder_no_keyword (i : nat) (bucket : string) (keywords : list string) :
  In (bucket, keywords) ANIMAL_BUCKETS ->
  any_keyword keywords (lower (placeholder i)) = false.
Proof.
  intro Hin. rewrite lower_placeholder.
  pose proof foreign_keyword_table as T. rewrite forallb_forall in T.
  specialize (T _ Hin). simpl in T. rewrite forallb_forall in T.
  unfold any_keyword. apply not_true_is_false. intro E.
  apply existsb_exists in E. destruct E as [k [Hk C]].
  rewrite (foreign_keyword_absent k i (T k Hk)) in C. discriminate.
Qed.

Lemma labrador_is_dog (label : string) (keywords : list string) :
  contains "labrador" (lower label) = true ->
  In "labrador"%string keywords ->
  any_keyword keywords (lower label) = true.
Proof.
  intros C Hin. apply existsb_exists. exists "labrador"%string. now split.
Qed.

(** ** The dict [found] *)

Section DictFacts.
Context {S : Type} `{Score S}.

Definition keys (found : @dict S) : list string := map fst found.

Lemma dict_get_In (found : @dict S) (k : string) (v : S) :
  dict_get found k = Some v -> In (k, v) found.
Proof.
  induction found as [| [k' w] rest IH]; simpl; [discriminate |].
  destruct (String.eqb_spec k' k) as [-> | N]; intro E.
  - injection E as ->. now left.
  - right. now apply IH.
Qed.

Lemma dict_get_None (found : @dict S) (k : string) :
  dict_get found k = None <-> ~ In k (keys found).
Proof.
  induction found as [| [k' w] rest IH]; simpl; [tauto |].
  destruct (String.eqb_spec k' k) as [-> | N].
  - split; [discriminate | tauto].
  - rewrite IH. tauto.
Qed.

Lemma dict_get_set (found : @dict S) (k k' : string) (v : S) :
  dict_get (dict_set found k v) k' =
  if String.eqb k k' then Some v else dict_get found k'.
Proof.
  induction found as [| [a w] rest IH]; simpl.
  - reflexivity.
  - destruct (String.eqb_spec a k) as [-> | N]; simpl.
    + destruct (String.eqb k k'); reflexivity.
    + rewrite IH. destruct (String.eqb_spec a k') as [-> | N'];
        destruct (String.eqb_spec k k') as [-> | N'']; congruence.
Qed.

Lemma keys_set_old (found : @dict S) (k : string) (v w : S) :
  dict_get found k = Some w -> keys (dict_set found k v) = keys found.
Proof.
  induction found as [| [a u] rest IH]; simpl; [discriminate |].
  destruct (String.eqb_spec a k) as [-> | N]; simpl; intro E.
  - reflexivity.
  - f_equal. now apply IH.
Qed.

Lemma dict_set_new (found : @dict S) (k : string) (v : S) :
  dict_get found k = None -> dict_set found k v = found ++ [(k, v)].
Proof.
  induction found as [| [a u] rest IH]; simpl; [reflexivity |].
  destruct (String.eqb_spec a k) as [-> | N]; [discriminate |].
  intro E. f_equal. now apply IH.
Qed.

Lemma In_dict_set (found : @dict S) (k b : string) (v s : S) :
  In (b, s) (dict_set found k v) -> (b = k /\ s = v) \/ In (b, s) found.
Proof.
  induction found as [| [a u] rest IH]; simpl.
  - intros [E | []]. left. injection E as <- <-. tauto.
  - destruct (String.eqb_spec a k) as [-> | N]; simpl; intros [E | E].
    + left. injection E as <- <-. tauto.
    + tauto.
    + tauto.
    + destruct (IH E); tauto.
Qed.

(** What [keep_max] does to the keys: nothing, or one new key at the end. *)
Lemma keys_keep_max (found : @dict S) (b : string) (s : S) :
  keys (keep_max found b s) =
  match dict_get found b with
  | Some _ => keys found
  | None => keys found ++ [b]
  end.
Proof.
  unfold keep_max. destruct (dict_get found b) as [old |] eqn:G.
  - destruct (ltb old s); [now apply keys_set_old with old | reflexivity].
  - rewrite dict_set_new by assumption. unfold keys. now rewrite map_app.
Qed.

(** What [keep_max] does to the values: the bucket holds the larger score,
    the first one on a tie. *)
Lemma get_keep_max (found : @dict S) (b k : string) (s : S) :
  dict_get (keep_max found b s) k =
  if String.eqb b k then
    match dict_get found b with
    | Some old => if ltb old s then Some s else Some old
    | None => Some s
    end
  else dict_get found k.
Proof.
  unfold keep_max. destruct (dict_get found b) as [old |] eqn:G.
  - destruct (ltb old s).
    + apply dict_get_set.
    + destruct (String.eqb_spec b k) as [<- | N]; [assumption | reflexivity].
  - apply dict_get_set.
Qed.

Lemma keep_max_twice (found : @dict S) (b : string) (s : S) :
  keep_max (keep_max found b s) b s = keep_max found b s.
Proof.
  unfold keep_max at 1. rewrite get_keep_max, String.eqb_refl.
  destruct (dict_get found b) as [old |].
  - destruct (ltb old s) eqn:L; [now rewrite ltb_irrefl | now rewrite L].
  - now rewrite ltb_irrefl.
Qed.

Lemma NoDup_keep_max (found : @dict S) (b : string) (s : S) :
  NoDup (keys found) -> NoDup (keys (keep_max found b s)).
Proof.
  intro N. rewrite keys_keep_max. destruct (dict_get found b) eqn:G; [assumption |].
  apply dict_get_None in G.
  apply (Permutation_NoDup (l := b :: keys found)).
  - apply Permutation_cons_append.
  - now constructor.
Qed.

Lemma In_keep_max (found : @dict S) (b k : string) (s v : S) :
  In (k, v) (keep_max found b s) -> (k = b /\ v = s) \/ In (k, v) found.
Proof.
  unfold keep_max. destruct (dict_get found b) as [old |].
  - destruct (ltb old s); [apply In_dict_set | tauto].
  - apply In_dict_set.
Qed.

Lemma NoDup_keys_get (found : @dict S) (k : string) (v : S) :
  NoDup (keys found) -> In (k, v) found -> dict_get found k = Some v.
Proof.
  induction found as [| [a u] rest IH]; simpl; [contradiction |].
  intros N [E | E].
  - injection E as -> ->. now rewrite String.eqb_refl.
  - inversion N as [| ? ? Hn N']; subst.
    destruct (String.eqb_spec a k) as [-> | _].
    + exfalso. apply Hn. change k with (fst (k, v)). now apply in_map.
    + now apply IH.
Qed.

(** The hits of one label against a table: its matching buckets, in table
    order, each with the score of the class. *)
Definition hits_of (table : list (string * list string)) (label : string) (score : S)
  : list (string * S) :=
  map (fun item => (fst item, score))
      (filter (fun item => any_keyword (snd item) label) table).

(** The hits of the selected classes, in the order the loops meet them. *)
Fixpoint hits (probs : list S) (labels : list string) (topk : list nat)
  : list (string * S) :=
  match topk with
  | [] => []
  | idx :: rest =>
      match nth_error labels idx, nth_error probs idx with
      | Some l, Some p => hits_of ANIMAL_BUCKETS (lower l) p ++ hits probs labels rest
      | _, _ => []
      end
  end.

(** The three nested loops as one pass of [keep_max] over the hits. *)
Definition keep_all (hs : list (string * S)) (found : @dict S) : @dict S :=
  fold_left (fun found h => keep_max found (fst h) (snd h)) hs found.

Lemma scan_keywords_any (label : string) (score : S) (bucket : string)
    (keywords : list string) (found : @dict S) :
  scan_keywords label score bucket keywords found =
  if any_keyword keywords label then keep_max found bucket score else found.
Proof.
  unfold scan_keywords, any_keyword.
  assert (Kept : forall ks f,
    fold_left (fun found k => if contains k label then keep_max found bucket score else found)
      ks (keep_max f bucket score) = keep_max f bucket score).
  { induction ks as [| k ks IH]; intro f; simpl; [reflexivity |].
    destruct (contains k label); [rewrite keep_max_twice |]; apply IH. }
  revert found. induction keywords as [| k ks IH]; intro found; simpl; [reflexivity |].
  destruct (contains k label); simpl; [apply Kept | apply IH].
Qed.

Lemma scan_table_hits (table : list (string * list string)) (label : string)
    (score : S) (found : @dict S) :
  scan_table table label score found = keep_all (hits_of table label score) found.
Proof.
  unfold scan_table, keep_all, hits_of. revert found.
  induction table as [| [b ks] table IH]; intro found; simpl; [reflexivity |].
  rewrite scan_keywords_any.
  destruct (any_keyword ks label); simpl; apply IH.
Qed.

Lemma scan_topk_hits (probs : list S) (labels : list string) (topk : list nat)
    (found found' : @dict S) :
  scan_topk probs labels topk found = Ok found' ->
  found' = keep_all (hits probs labels topk) found.
Proof.
  revert found. induction topk as [| idx rest IH]; intro found; cbn [scan_topk hits].
  - intro E. now injection E as <-.
  - unfold getitem.
    destruct (nth_error labels idx) as [l |]; cbn [bind]; [| discriminate].
    destruct (nth_error probs idx) as [p |]; cbn [bind]; [| discriminate].
    intro E. apply IH in E. rewrite scan_table_hits in E.
    unfold keep_all in *. now rewrite fold_left_app.
Qed.

(** The loop raises only on an index out of range. *)
Lemma scan_topk_ok (probs : list S) (labels : list string) (topk : list nat)
    (found : @dict S) :
  (forall idx, In idx topk -> idx < List.length probs /\ idx < List.length labels) ->
  exists found', scan_topk probs labels topk found = Ok found'.
Proof.
  revert found. induction topk as [| idx rest IH]; intros found R; cbn [scan_topk].
  - now exists found.
  - destruct (R idx (or_introl eq_refl)) as [Rp Rl]. unfold getitem.
    apply nth_error_Some in Rp, Rl.
    destruct (nth_error labels idx); [| congruence].
    destruct (nth_error probs idx); [| congruence].
    cbn [bind]. apply IH. intros j Hj. apply R. now right.
Qed.

Lemma In_hits (probs : list S) (labels : list string) (topk : list nat)
    (b : string) (s : S) :
  In (b, s) (hits probs labels topk) ->
  exists idx l ks,
    In idx topk /\ nth_error labels idx = Some l /\ nth_error probs idx = Some s /\
    In (b, ks) ANIMAL_BUCKETS /\ any_keyword ks (lower l) = true.
Proof.
  induction topk as [| idx rest IH]; cbn [hits In]; [contradiction |].
  destruct (nth_error labels idx) as [l |] eqn:El; [| contradiction].
  destruct (nth_error probs idx) as [p |] eqn:Ep; [| contradiction].
  intro Hin. apply in_app_or in Hin. destruct Hin as [Hin | Hin].
  - unfold hits_of in Hin. apply in_map_iff in Hin.
    destruct Hin as [[b' ks] [E F]]. cbn [fst] in E. injection E as <- <-.
    apply filter_In in F. destruct F as [F1 F2].
    exists idx, l, ks. cbn [snd] in F2. tauto.
  - destruct (IH Hin) as [j [l' [ks P]]]. exists j, l', ks. tauto.
Qed.

Lemma hits_In (probs : list S) (labels : list string) (topk : list nat)
    (idx : nat) (l : string) (b : string) (ks : list string) (s : S) :
  (forall j, In j topk -> j < List.length probs /\ j < List.length labels) ->
  In idx topk -> nth_error labels idx = Some l -> nth_error probs idx = Some s ->
  In (b, ks) ANIMAL_BUCKETS -> any_keyword ks (lower l) = true ->
  In (b, s) (hits probs labels topk).
Proof.
  intros R Hin El Ep Hb Hk. induction topk as [| j rest IH]; cbn [hits]; [contradiction |].
  destruct (R j (or_introl eq_refl)) as [Rp Rl].
  apply nth_error_Some in Rp, Rl.
  destruct (nth_error labels j) as [l' |] eqn:El'; [| congruence].
  destruct (nth_error probs j) as [p' |] eqn:Ep'; [| congruence].
  apply in_or_app. destruct Hin as [-> | Hin].
  - left. rewrite El in El'. rewrite Ep in Ep'.
    injection El' as <-. injection Ep' as <-.
    unfold hits_of. apply in_map_iff. exists (b, ks). split; [reflexivity |].
    apply filter_In. now split.
  - right. apply IH; [| assumption]. intros i Hi. apply R. now right.
Qed.

End DictFacts.

(** ** One pass of [keep_max] over the hits *)

Section KeepFacts.
Context {S : Type} `{Score S}.

Lemma sle_refl (x : S) : sle x x.
Proof. apply ltb_irrefl. Qed.

Lemma sle_trans (x y z : S) : sle x y -> sle y z -> sle x z.
Proof. unfold sle. intros A B. exact (geb_trans z y x B A). Qed.

Lemma ltb_asym (x y : S) : ltb x y = true -> ltb y x = false.
Proof.
  intro L. destruct (ltb y x) eqn:G; [| reflexivity].
  rewrite <- (ltb_irrefl x). symmetry. now apply ltb_trans with y.
Qed.

Lemma ltb_sle (x y : S) : ltb x y = true -> sle x y.
Proof. apply ltb_asym. Qed.

Lemma NoDup_keep_all (hs : list (string * S)) (found : @dict S) :
  NoDup (keys found) -> NoDup (keys (keep_all hs found)).
Proof.
  revert found. induction hs as [| [b s] hs IH]; intros found N; simpl; [assumption |].
  apply IH. now apply NoDup_keep_max.
Qed.

Lemma In_keep_all (hs : list (string * S)) (found : @dict S) (k : string) (v : S) :
  In (k, v) (keep_all hs found) -> In (k, v) hs \/ In (k, v) found.
Proof.
  revert found. induction hs as [| [b s] hs IH]; intros found E; simpl in *; [tauto |].
  destruct (IH _ E) as [E' | E']; [tauto |].
  destruct (In_keep_max _ _ _ _ _ E') as [[-> ->] | E'']; tauto.
Qed.

(** A stored score only grows. *)
Lemma keep_all_grows (hs : list (string * S)) (found : @dict S) (k : string) (v : S) :
  dict_get found k = Some v ->
  exists v', dict_get (keep_all hs found) k = Some v' /\ sle v v'.
Proof.
  revert found v. induction hs as [| [b s] hs IH]; intros found v G; simpl.
  - exists v. split; [assumption | apply sle_refl].
  - assert (Step : exists u, dict_get (keep_max found b s) k = Some u /\ sle v u).
    { rewrite get_keep_max. destruct (String.eqb_spec b k) as [-> | N].
      - rewrite G. destruct (ltb v s) eqn:L.
        + exists s. split; [reflexivity | now apply ltb_sle].
        + exists v. split; [reflexivity | apply sle_refl].
      - exists v. split; [assumption | apply sle_refl]. }
    destruct Step as [u [Gu Lu]]. destruct (IH _ _ Gu) as [v' [Gv Lv]].
    exists v'. split; [assumption | now apply sle_trans with u].
Qed.

(** Every hit is recorded, under a score that is at least its own. *)
Lemma keep_all_covers (hs : list (string * S)) (found : @dict S) (b : string) (s : S) :
  In (b, s) hs ->
  exists v, dict_get (keep_all hs found) b = Some v /\ sle s v.
Proof.
  revert found. induction hs as [| [b' s'] hs IH]; intros found Hin; simpl in *;
    [contradiction |].
  destruct Hin as [E | Hin]; [| now apply IH].
  injection E as -> ->.
  assert (Step : exists u, dict_get (keep_max found b s) b = Some u /\ sle s u).
  { rewrite get_keep_max, String.eqb_refl. destruct (dict_get found b) as [old |].
    - destruct (ltb old s) eqn:L.
      + exists s. split; [reflexivity | apply sle_refl].
      + exists old. split; [reflexivity | exact L].
    - exists s. split; [reflexivity | apply sle_refl]. }
  destruct Step as [u [Gu Lu]]. destruct (keep_all_grows hs _ _ _ Gu) as [v [Gv Lv]].
  exists v. split; [assumption | now apply sle_trans with u].
Qed.

(** The first entry stays first, with its score, while no later hit beats it. *)
Lemma keep_max_head (b0 : string) (s0 : S) (rest : @dict S) (b : string) (s : S) :
  ltb s0 s = false ->
  exists rest', keep_max ((b0, s0) :: rest) b s = (b0, s0) :: rest'.
Proof.
  intro L. unfold keep_max. simpl.
  destruct (String.eqb_spec b0 b) as [-> | N].
  - rewrite L. now exists rest.
  - destruct (dict_get rest b) as [old |].
    + destruct (ltb old s); [now exists (dict_set rest b s) | now exists rest].
    + now exists (dict_set rest b s).
Qed.

Lemma keep_all_head (hs : list (string * S)) (b0 : string) (s0 : S) (rest : @dict S) :
  (forall b s, In (b, s) hs -> ltb s0 s = false) ->
  exists rest', keep_all hs ((b0, s0) :: rest) = (b0, s0) :: rest'.
Proof.
  revert rest. induction hs as [| [b s] hs IH]; intros rest L; simpl.
  - now exists rest.
  - destruct (keep_max_head b0 s0 rest b s) as [r E].
    + apply (L b s). now left.
    + rewrite E. apply IH. intros b' s' Hin. apply (L b' s'). now right.
Qed.

End KeepFacts.

(** ** The stable sort *)

Section SortFacts.
Context {A : Type} (lt : A -> A -> bool).

Definition isort (xs acc : list A) : list A :=
  fold_left (fun acc x => insert lt x acc) xs acc.

Lemma insert_perm (x : A) (l : list A) : Permutation (insert lt x l) (x :: l).
Proof.
  induction l as [| y l IH]; simpl; [reflexivity |].
  destruct (lt x y); [reflexivity |].
  rewrite IH. apply perm_swap.
Qed.

Lemma isort_perm (xs acc : list A) : Permutation (isort xs acc) (xs ++ acc).
Proof.
  revert acc. induction xs as [| x xs IH]; intro acc; simpl; [reflexivity |].
  unfold isort in *. simpl. rewrite IH, insert_perm.
  symmetry. apply Permutation_middle.
Qed.

Hypothesis lt_asym : forall x y, lt x y = true -> lt y x = false.
Hypothesis ge_trans : forall x y z, lt x y = false -> lt y z = false -> lt x z = false.

(** [a] may stand before [b]: [b] is not strictly before [a]. *)
Definition ordered (a b : A) : Prop := lt b a = false.

Lemma insert_sorted (x : A) (l : list A) :
  StronglySorted ordered l -> StronglySorted ordered (insert lt x l).
Proof.
  induction 1 as [| y l Sl IH Fy]; simpl.
  - repeat constructor.
  - destruct (lt x y) eqn:L.
    + constructor; [now constructor |].
      constructor; [now apply lt_asym |].
      rewrite Forall_forall in *. intros z Hz. unfold ordered in *.
      apply ge_trans with y; [now apply Fy | now apply lt_asym].
    + constructor; [assumption |].
      rewrite Forall_forall in *. intros z Hz.
      apply (Permutation_in _ (insert_perm x l)) in Hz.
      destruct Hz as [<- | Hz]; [exact L | now apply Fy].
Qed.

Lemma isort_sorted (xs acc : list A) :
  StronglySorted ordered acc -> StronglySorted ordered (isort xs acc).
Proof.
  revert acc. induction xs as [| x xs IH]; intros acc Sa; simpl; [assumption |].
  apply IH. now apply insert_sorted.
Qed.

(** An element that nothing after it precedes strictly keeps the first place. *)
Lemma isort_head (x : A) (xs acc : list A) :
  (forall y, In y xs -> lt y x = false) ->
  isort xs (x :: acc) = x :: isort xs acc.
Proof.
  revert acc. induction xs as [| y xs IH]; intros acc L; simpl; [reflexivity |].
  rewrite (L y (or_introl eq_refl)). apply IH. intros z Hz. apply L. now right.
Qed.

End SortFacts.

Section SortedFacts.
Context {S : Type} `{Score S} {A : Type} (key : A -> S).

Lemma sorted_perm (reverse : bool) (xs : list A) :
  Permutation (sorted key reverse xs) xs.
Proof.
  unfold sorted. rewrite <- (app_nil_r xs) at 2. apply isort_perm.
Qed.

(** [reverse=True] gives a list that is non-increasing in the key. *)
Lemma sorted_reverse_sorted (xs : list A) :
  StronglySorted (fun a b => sle (key b) (key a)) (sorted key true xs).
Proof.
  apply (isort_sorted (fun x y => ltb (key y) (key x))).
  - intros x y. apply ltb_asym.
  - intros x y z Hxy Hyz. exact (geb_trans _ _ _ Hyz Hxy).
  - constructor.
Qed.

Lemma sorted_ascending_sorted (xs : list A) :
  StronglySorted (fun a b => sle (key a) (key b)) (sorted key false xs).
Proof.
  apply (isort_sorted (fun x y => ltb (key x) (key y))).
  - intros x y. apply ltb_asym.
  - intros x y z. apply geb_trans.
  - constructor.
Qed.

Lemma sorted_reverse_head (x : A) (xs : list A) :
  (forall y, In y xs -> ltb (key x) (key y) = false) ->
  sorted key true (x :: xs) = x :: sorted key true xs.
Proof.
  intro L. unfold sorted. simpl.
  now apply (isort_head (fun x y => ltb (key y) (key x))).
Qed.

End SortedFacts.

Lemma StronglySorted_weaken {A : Type} (R R' : A -> A -> Prop) (l : list A) :
  (forall a b, In a l -> In b l -> R a b -> R' a b) ->
  StronglySorted R l -> StronglySorted R' l.
Proof.
  intros W Sl. induction Sl as [| a l Sl IH Fa]; constructor.
  - apply IH. intros x y Hx Hy. apply W; now right.
  - rewrite Forall_forall in *. intros b Hb.
    apply W; [now left | now right | now apply Fa].
Qed.

Lemma StronglySorted_app_cross {A : Type} (R : A -> A -> Prop) (l1 l2 : list A) :
  StronglySorted R (l1 ++ l2) ->
  forall a b, In a l1 -> In b l2 -> R a b.
Proof.
  induction l1 as [| x l1 IH]; simpl; intros Sl a b Ha Hb; [contradiction |].
  inversion Sl as [| ? ? Sl' Fx]; subst. destruct Ha as [<- | Ha].
  - rewrite Forall_forall in Fx. apply Fx, in_or_app. now right.
  - now apply IH.
Qed.

Lemma StronglySorted_rev {A : Type} (R : A -> A -> Prop) (l : list A) :
  StronglySorted R l -> StronglySorted (fun a b => R b a) (List.rev l).
Proof.
  induction 1 as [| a l Sl IH Fa]; simpl; [constructor |].
  assert (G : forall l', StronglySorted (fun a b => R b a) l' ->
                         Forall (fun b => R a b) l' ->
                         StronglySorted (fun a b => R b a) (l' ++ [a])).
  { induction l' as [| y l' IH']; simpl; intros Sl' Fl'.
    - repeat constructor.
    - inversion Sl' as [| ? ? Sl'' Fy]; subst. inversion Fl'; subst.
      constructor; [now apply IH' |].
      apply Forall_app. split; [assumption | now repeat constructor]. }
  apply G; [assumption |].
  rewrite Forall_forall in *. intros b Hb. apply Fa. now apply in_rev.
Qed.

Lemma StronglySorted_skipn {A : Type} (R : A -> A -> Prop) (n : nat) (l : list A) :
  StronglySorted R l -> StronglySorted R (skipn n l).
Proof.
  revert l. induction n as [| n IH]; intros l Sl; simpl; [assumption |].
  destruct l as [| a l]; [constructor |].
  inversion Sl; subst. now apply IH.
Qed.

(** ** A ranking that meets the interface: the stable one *)

(** [np.argsort(v, kind="stable")]. *)
Definition stable_argsort {S : Type} `{Score S} (v : list S) : list nat :=
  match v with
  | [] => []
  | d :: _ => sorted (fun i => nth i v d) false (seq 0 (List.length v))
  end.

Lemma stable_argsort_perm {S : Type} `{Score S} (v : list S) :
  Permutation (stable_argsort v) (seq 0 (List.length v)).
Proof.
  destruct v as [| d v]; [reflexivity |]. apply sorted_perm.
Qed.

Lemma stable_argsort_sorted {S : Type} `{Score S} (v : list S) :
  StronglySorted
    (fun i j => forall x y, nth_error v i = Some x -> nth_error v j = Some y -> sle x y)
    (stable_argsort v).
Proof.
  destruct v as [| d v]; [constructor |].
  eapply StronglySorted_weaken; [| apply sorted_ascending_sorted].
  intros i j _ _ L x y Ex Ey. cbv beta in L.
  now rewrite (nth_error_nth _ _ d Ex), (nth_error_nth _ _ d Ey) in L.
Qed.

#[export] Instance Stable_ArgSort {S : Type} `{Score S} : ArgSort S :=
  {| argsort := stable_argsort;
     argsort_perm := stable_argsort_perm;
     argsort_sorted := stable_argsort_sorted |}.

(** ** The selected classes *)

Section TopFacts.
Context {S : Type} `{ArgSort S}.

(** Class [j] does not score above class [i]. *)
Definition not_above (v : list S) (j i : nat) : Prop :=
  forall x y, nth_error v j = Some x -> nth_error v i = Some y -> sle x y.

Lemma argsort_length (v : list S) : List.length (argsort v) = List.length v.
Proof.
  rewrite (Permutation_length (argsort_perm v)). apply length_seq.
Qed.

Lemma argsort_NoDup (v : list S) : NoDup (argsort v).
Proof.
  apply (Permutation_NoDup (Permutation_sym (argsort_perm v))), seq_NoDup.
Qed.

Lemma argsort_In (v : list S) (i : nat) : In i (argsort v) <-> i < List.length v.
Proof.
  split; intro E.
  - apply (Permutation_in _ (argsort_perm v)), in_seq in E. lia.
  - apply (Permutation_in _ (Permutation_sym (argsort_perm v))), in_seq. lia.
Qed.

(** The slice and the reversal of line 84 take the first 20 of the descending
    ranking. *)
Lemma top20_firstn (v : list S) : top20 v = firstn 20 (List.rev (argsort v)).
Proof. unfold top20, last_n. symmetry. apply firstn_rev. Qed.

Lemma top20_length (v : list S) : List.length (top20 v) = Nat.min 20 (List.length v).
Proof.
  rewrite top20_firstn, length_firstn, length_rev, argsort_length. reflexivity.
Qed.

Lemma top20_argsort (v : list S) (i : nat) : In i (top20 v) -> In i (argsort v).
Proof.
  unfold top20, last_n. intro E. apply in_rev in E.
  rewrite <- (firstn_skipn (List.length (argsort v) - 20) (argsort v)).
  apply in_or_app. now right.
Qed.

Lemma top20_bound (v : list S) (i : nat) : In i (top20 v) -> i < List.length v.
Proof. intro E. now apply argsort_In, top20_argsort. Qed.

Lemma top20_NoDup (v : list S) : NoDup (top20 v).
Proof.
  unfold top20, last_n. apply NoDup_rev.
  pose proof (argsort_NoDup v) as N.
  rewrite <- (firstn_skipn (List.length (argsort v) - 20) (argsort v)) in N.
  now apply NoDup_app_remove_l in N.
Qed.

(** A class that is left out scores no higher than any selected class. *)
Lemma top20_highest (v : list S) (i j : nat) :
  In i (top20 v) -> j < List.length v -> ~ In j (top20 v) -> not_above v j i.
Proof.
  unfold top20, last_n. intros Hi Hj Nj.
  apply in_rev in Hi. rewrite <- in_rev in Nj.
  apply argsort_In in Hj.
  pose proof (argsort_sorted v) as Sv.
  rewrite <- (firstn_skipn (List.length (argsort v) - 20) (argsort v)) in Hj, Sv.
  apply in_app_or in Hj. destruct Hj as [Hj | Hj]; [| contradiction].
  exact (StronglySorted_app_cross _ _ _ Sv j i Hj Hi).
Qed.

(** The selected classes come in non-increasing order of score. *)
Lemma top20_sorted (v : list S) :
  StronglySorted (fun i j => not_above v j i) (top20 v).
Proof.
  unfold top20, last_n.
  apply (StronglySorted_rev (fun i j => not_above v i j)).
  apply StronglySorted_skipn. exact (argsort_sorted v).
Qed.

(** A class that scores strictly above all others is selected first. *)
Lemma top20_head (v : list S) (i : nat) (p : S) :
  nth_error v i = Some p ->
  (forall j q, j <> i -> nth_error v j = Some q -> ltb q p = true) ->
  exists rest, top20 v = i :: rest.
Proof.
  intros Ei Top.
  assert (Hi : In i (List.rev (argsort v))).
  { rewrite <- in_rev. apply argsort_In, nth_error_Some. congruence. }
  assert (Hr : forall h, In h (List.rev (argsort v)) -> h < List.length v).
  { intros h Hh. rewrite <- in_rev in Hh. now apply argsort_In. }
  pose proof (StronglySorted_rev _ _ (argsort_sorted v)) as Sr.
  rewrite top20_firstn.
  destruct (List.rev (argsort v)) as [| h r]; [contradiction |].
  exists (firstn 19 r). cbn [firstn]. f_equal.
  destruct Hi as [E | Hi]; [assumption |].
  destruct (Nat.eq_dec h i) as [E | N]; [assumption | exfalso].
  inversion Sr as [| ? ? _ Fh]; subst. rewrite Forall_forall in Fh.
  specialize (Fh i Hi). cbv beta in Fh.
  destruct (nth_error v h) as [q |] eqn:Eh.
  - specialize (Fh p q Ei eq_refl). unfold sle in Fh.
    rewrite (Top h q N Eh) in Fh. discriminate.
  - apply nth_error_None in Eh. specialize (Hr h (or_introl eq_refl)). lia.
Qed.

End TopFacts.

(** ** From the probabilities to the result *)

Section BucketizeFacts.
Context {S : Type} `{ArgSort S}.
Variables (probs : list S) (labels : list string).

(** Class [idx] has probability [s] and a label whose lower-case form contains
    a keyword of bucket [b]. *)
Definition matches (idx : nat) (b : string) (s : S) : Prop :=
  exists l ks,
    nth_error labels idx = Some l /\ nth_error probs idx = Some s /\
    In (b, ks) ANIMAL_BUCKETS /\ any_keyword ks (lower l) = true.

(** The dict [found] when the loops are over. *)
Definition found_of : @dict S := keep_all (hits probs labels (top20 probs)) [].

Lemma scan_topk_range (topk : list nat) (found found' : @dict S) :
  scan_topk probs labels topk found = Ok found' ->
  forall idx, In idx topk -> idx < List.length probs /\ idx < List.length labels.
Proof.
  revert found. induction topk as [| i rest IH]; intros found E idx Hin;
    [contradiction |].
  cbn [scan_topk] in E. unfold getitem in E.
  destruct (nth_error labels i) as [l |] eqn:El; cbn [bind] in E; [| discriminate].
  destruct (nth_error probs i) as [p |] eqn:Ep; cbn [bind] in E; [| discriminate].
  destruct Hin as [<- | Hin].
  - split; apply nth_error_Some; congruence.
  - now apply (IH _ E).
Qed.

Lemma bucketize_inv (res : list (string * S)) :
  bucketize probs labels = Ok res ->
  res = sorted snd true found_of /\
  (forall idx, In idx (top20 probs) ->
     idx < List.length probs /\ idx < List.length labels).
Proof.
  unfold bucketize.
  destruct (scan_topk probs labels (top20 probs) []) as [found |] eqn:E;
    cbn [bind]; [| discriminate].
  intro R. injection R as <-. split.
  - now rewrite (scan_topk_hits _ _ _ _ _ E).
  - now apply scan_topk_range with [] found.
Qed.

(** [bucketize] returns as soon as every selected class has a label. *)
Lemma bucketize_ok :
  (forall idx, In idx (top20 probs) -> idx < List.length labels) ->
  bucketize probs labels = Ok (sorted snd true found_of).
Proof.
  intro R. unfold bucketize.
  destruct (scan_topk_ok probs labels (top20 probs) []) as [found E].
  - intros idx Hin. split; [now apply top20_bound | now apply R].
  - rewrite E. cbn [bind]. now rewrite (scan_topk_hits _ _ _ _ _ E).
Qed.

Lemma NoDup_found : NoDup (keys found_of).
Proof. apply NoDup_keep_all. constructor. Qed.

Lemma In_found (b : string) (s : S) :
  In (b, s) found_of -> exists idx, In idx (top20 probs) /\ matches idx b s.
Proof.
  intro E. apply In_keep_all in E. destruct E as [E | []].
  apply In_hits in E. destruct E as [idx [l [ks [Hin P]]]].
  exists idx. split; [assumption |]. now exists l, ks.
Qed.

Lemma In_result (res : list (string * S)) (b : string) (s : S) :
  bucketize probs labels = Ok res -> In (b, s) res <-> In (b, s) found_of.
Proof.
  intro E. destruct (bucketize_inv res E) as [-> _]. split.
  - apply Permutation_in, sorted_perm.
  - apply Permutation_in, Permutation_sym, sorted_perm.
Qed.

(** Every entry stems from a selected class that matches its bucket. *)
Lemma result_matches (res : list (string * S)) (b : string) (s : S) :
  bucketize probs labels = Ok res -> In (b, s) res ->
  exists idx, In idx (top20 probs) /\ matches idx b s.
Proof.
  intros E Hin. apply In_found. now apply (In_result res).
Qed.

(** The bucket names of the result are pairwise distinct. *)
Lemma result_NoDup (res : list (string * S)) :
  bucketize probs labels = Ok res -> NoDup (map fst res).
Proof.
  intro E. destruct (bucketize_inv res E) as [-> _].
  apply (Permutation_NoDup (l := keys found_of)); [| apply NoDup_found].
  unfold keys. apply Permutation_map, Permutation_sym, sorted_perm.
Qed.

(** The score of an entry is an upper bound of its matching classes. *)
Lemma result_upper (res : list (string * S)) (b : string) (s s' : S) (idx : nat) :
  bucketize probs labels = Ok res -> In (b, s) res ->
  In idx (top20 probs) -> matches idx b s' -> sle s' s.
Proof.
  intros E Hin Hidx [l [ks [El [Ep [Hb Hk]]]]].
  destruct (bucketize_inv res E) as [_ R].
  apply (In_result res) in Hin; [| assumption].
  apply NoDup_keys_get in Hin; [| apply NoDup_found].
  assert (Hit : In (b, s') (hits probs labels (top20 probs)))
    by now apply hits_In with idx l ks.
  destruct (keep_all_covers _ [] _ _ Hit) as [v [Gv Lv]].
  unfold found_of in Hin. rewrite Hin in Gv. now injection Gv as ->.
Qed.

(** A bucket that a selected class matches has an entry. *)
Lemma result_covers (res : list (string * S)) (b : string) (s' : S) (idx : nat) :
  bucketize probs labels = Ok res ->
  In idx (top20 probs) -> matches idx b s' -> exists s, In (b, s) res.
Proof.
  intros E Hidx [l [ks [El [Ep [Hb Hk]]]]].
  destruct (bucketize_inv res E) as [_ R].
  assert (Hit : In (b, s') (hits probs labels (top20 probs)))
    by now apply hits_In with idx l ks.
  destruct (keep_all_covers _ [] _ _ Hit) as [v [Gv _]].
  exists v. apply (In_result res); [assumption |]. now apply dict_get_In.
Qed.

(** The result is non-increasing in the score. *)
Lemma result_sorted (res : list (string * S)) :
  bucketize probs labels = Ok res ->
  StronglySorted (fun a b => sle (snd b) (snd a)) res.
Proof.
  intro E. destruct (bucketize_inv res E) as [-> _].
  apply sorted_reverse_sorted.
Qed.

(** Every name of the result is a bucket of the table. *)
Lemma result_buckets (res : list (string * S)) :
  bucketize probs labels = Ok res -> incl (map fst res) (map fst ANIMAL_BUCKETS).
Proof.
  intros E b Hb. apply in_map_iff in Hb. destruct Hb as [[b' s] [<- Hin]].
  destruct (result_matches res b' s E Hin) as [idx [_ [l [ks [_ [_ [Hk _]]]]]]].
  apply in_map_iff. now exists (b', ks).
Qed.

Lemma result_length (res : list (string * S)) :
  bucketize probs labels = Ok res -> List.length res <= 16.
Proof.
  intro E. rewrite <- (length_map fst res).
  change 16 with (List.length (map fst ANIMAL_BUCKETS)).
  apply NoDup_incl_length; [now apply result_NoDup | now apply result_buckets].
Qed.

(** Without a match the result is empty. *)
Lemma result_empty :
  (forall idx b s, In idx (top20 probs) -> ~ matches idx b s) ->
  found_of = [].
Proof.
  intro N. destruct found_of as [| [b s] rest] eqn:F; [reflexivity | exfalso].
  destruct (In_found b s) as [idx [Hin M]].
  - rewrite F. now left.
  - exact (N idx b s Hin M).
Qed.

End BucketizeFacts.

(** ** The top class *)

Lemma dog_first :
  exists ks table,
    ANIMAL_BUCKETS = ("Dog"%string, ks) :: table /\ In "labrador"%string ks.
Proof.
  eexists. eexists. split; [reflexivity |]. right. now left.
Qed.

Section HeadFacts.
Context {S : Type} `{ArgSort S}.
Variables (probs : list S) (labels : list string).

(** Class [i], of probability [p], scores strictly above every other class. *)
Definition single_highest (i : nat) (p : S) : Prop :=
  nth_error probs i = Some p /\
  forall j q, j <> i -> nth_error probs j = Some q -> ltb q p = true.

Lemma single_highest_bound (i : nat) (p : S) (idx : nat) (b : string) (s : S) :
  single_highest i p -> matches probs labels idx b s -> ltb p s = false.
Proof.
  intros [Ei Top] [l [ks [_ [Es _]]]].
  destruct (Nat.eq_dec idx i) as [-> | N].
  - rewrite Ei in Es. injection Es as <-. apply ltb_irrefl.
  - apply ltb_asym. now apply (Top idx).
Qed.

Lemma result_head (i : nat) (p : S) (l : string) :
  single_highest i p ->
  nth_error labels i = Some l ->
  contains "labrador" (lower l) = true ->
  (forall idx, In idx (top20 probs) -> idx < List.length labels) ->
  exists rest, bucketize probs labels = Ok (("Dog"%string, p) :: rest).
Proof.
  intros Hi El C R. rewrite (bucketize_ok probs labels R).
  destruct Hi as [Ei Top].
  destruct (top20_head probs i p Ei Top) as [rest Et].
  destruct dog_first as [ks [table [Eb Hk]]].
  assert (Hits : exists hs,
            hits probs labels (top20 probs) = ("Dog"%string, p) :: hs).
  { rewrite Et. cbn [hits]. rewrite El, Ei. unfold hits_of. rewrite Eb.
    cbn [filter snd]. rewrite (labrador_is_dog l ks C Hk). cbn [map fst].
    eexists. reflexivity. }
  destruct Hits as [hs Eh].
  assert (Bound : forall b s, In (b, s) (found_of probs labels) -> ltb p s = false).
  { intros b s Hin. destruct (In_found probs labels b s Hin) as [idx [_ M]].
    now apply (single_highest_bound i p idx b s). }
  assert (Head : exists rest', found_of probs labels = ("Dog"%string, p) :: rest').
  { unfold found_of. rewrite Eh. cbn [keep_all fold_left fst snd].
    change (keep_max [] "Dog" p) with [("Dog"%string, p)].
    apply keep_all_head. intros b s Hin.
    assert (Hin' : In (b, s) (hits probs labels (top20 probs)))
      by (rewrite Eh; now right).
    apply In_hits in Hin'. destruct Hin' as [idx [l' [ks' [_ P]]]].
    apply (single_highest_bound i p idx b s); [now split |].
    now exists l', ks'. }
  destruct Head as [rest' Ef]. rewrite Ef in *.
  exists (sorted snd true rest'). f_equal.
  apply sorted_reverse_head. intros [b s] Hin. cbn [snd].
  apply (Bound b s). now right.
Qed.

End HeadFacts.

(** ** Softmax *)

Section SoftmaxFacts.
Local Open Scope R_scope.

Lemma np_sum_from (v : list R) (a : R) : fold_left Rplus v a = a + np_sum v.
Proof.
  unfold np_sum. revert a. induction v as [| x v IH]; intro a; simpl; [lra |].
  rewrite (IH (a + x)), (IH (0 + x)). lra.
Qed.

Lemma np_sum_cons (x : R) (v : list R) : np_sum (x :: v) = x + np_sum v.
Proof. unfold np_sum at 1. simpl. rewrite np_sum_from. lra. Qed.

Lemma np_sum_nonneg (v : list R) : Forall (fun p => 0 <= p) v -> 0 <= np_sum v.
Proof.
  induction 1 as [| x v Hx _ IH]; [unfold np_sum; simpl; lra |].
  rewrite np_sum_cons. lra.
Qed.

Lemma np_sum_upper (v : list R) (x : R) :
  Forall (fun p => 0 <= p) v -> In x v -> x <= np_sum v.
Proof.
  induction 1 as [| y v Hy Fv IH]; intro Hin; [contradiction |].
  rewrite np_sum_cons. pose proof (np_sum_nonneg v Fv).
  destruct Hin as [-> | Hin]; [lra |]. specialize (IH Hin). lra.
Qed.

Lemma np_sum_exp_pos (f : R -> R) (v : list R) :
  v <> [] -> 0 < np_sum (map (fun x => exp (f x)) v).
Proof.
  destruct v as [| a v]; [congruence | intros _].
  cbn [map]. rewrite np_sum_cons.
  pose proof (exp_pos (f a)).
  assert (0 <= np_sum (map (fun x => exp (f x)) v)); [| lra].
  apply np_sum_nonneg, Forall_forall. intros p Hp.
  apply in_map_iff in Hp. destruct Hp as [x [<- _]]. apply Rlt_le, exp_pos.
Qed.

(** The shifted exponentials of line 72, and their sum. *)
Definition shifted (m : R) (logits : list R) : list R :=
  map (fun x => exp (x - m)) logits.

Lemma softmax_eq (logits : list R) (m : R) :
  np_max logits = Ok m ->
  softmax logits =
  Ok (map (fun p => p / np_sum (shifted m logits)) (shifted m logits)).
Proof. unfold softmax. now intros ->. Qed.

Lemma softmax_ok (logits : list R) :
  logits <> [] -> exists m, np_max logits = Ok m.
Proof. destruct logits as [| a xs]; [congruence | intros _; now eexists]. Qed.

Lemma softmax_length (logits probs : list R) :
  softmax logits = Ok probs -> List.length probs = List.length logits.
Proof.
  unfold softmax. destruct (np_max logits) as [m |]; cbn [bind]; [| discriminate].
  intro E. injection E as <-. now rewrite !length_map.
Qed.

Lemma softmax_nonempty (logits probs : list R) :
  softmax logits = Ok probs -> logits <> [].
Proof. destruct logits; [discriminate | discriminate]. Qed.

(** Every probability lies in the unit interval. *)
Lemma softmax_range (logits probs : list R) (p : R) :
  softmax logits = Ok probs -> In p probs -> 0 <= p <= 1.
Proof.
  intros E Hin. pose proof (softmax_nonempty _ _ E) as N.
  destruct (softmax_ok logits N) as [m Em].
  rewrite (softmax_eq logits m Em) in E. injection E as <-.
  apply in_map_iff in Hin. destruct Hin as [q [<- Hq]].
  assert (Pos : 0 < np_sum (shifted m logits))
    by exact (np_sum_exp_pos (fun x => x - m) logits N).
  assert (Fq : Forall (fun p => 0 <= p) (shifted m logits)).
  { apply Forall_forall. intros r Hr. apply in_map_iff in Hr.
    destruct Hr as [x [<- _]]. apply Rlt_le, exp_pos. }
  pose proof (np_sum_upper _ q Fq Hq) as Up.
  rewrite Forall_forall in Fq. specialize (Fq q Hq).
  split.
  - apply Rmult_le_pos; [assumption | apply Rlt_le, Rinv_0_lt_compat, Pos].
  - apply Rmult_le_reg_r with (np_sum (shifted m logits)); [assumption |].
    unfold Rdiv. rewrite Rmult_assoc, Rinv_l by lra. lra.
Qed.

(** A larger logit gets a larger probability. *)
Lemma softmax_increasing (logits probs : list R) (i j : nat) (x y p q : R) :
  softmax logits = Ok probs ->
  nth_error logits i = Some x -> nth_error logits j = Some y ->
  nth_error probs i = Some p -> nth_error probs j = Some q ->
  x < y -> p < q.
Proof.
  intros E Ex Ey Ep Eq L. pose proof (softmax_nonempty _ _ E) as N.
  destruct (softmax_ok logits N) as [m Em].
  rewrite (softmax_eq logits m Em) in E. injection E as <-.
  assert (Pos : 0 < np_sum (shifted m logits))
    by exact (np_sum_exp_pos (fun x => x - m) logits N).
  unfold shifted in Ep, Eq at 2. rewrite map_map in Ep, Eq.
  rewrite nth_error_map in Ep, Eq. rewrite Ex in Ep. rewrite Ey in Eq.
  cbn [option_map] in Ep, Eq. injection Ep as <-. injection Eq as <-.
  apply Rmult_lt_compat_r; [now apply Rinv_0_lt_compat |].
  apply exp_increasing. lra.
Qed.

End SoftmaxFacts.

(** * The claims about [predict] *)

Section Claims.
Variables Image Tensor Net : Type.
Variable preprocess : Image -> Tensor.
Variable forward : Net -> Tensor -> list R.
Context {AS : @ArgSort R Score_R}.

Local Abbreviation predict_with src := (predict Image Tensor Net preprocess forward src).

Lemma sle_R (x y : R) : sle x y <-> (x <= y)%R.
Proof. apply Rltb_false. Qed.

Lemma predict_loaded (src : option (list string)) (img : Image)
    (self : AnimalClassifier Net) (net : Net) (probs : list R) :
  model Net self = Some net ->
  softmax (forward net (preprocess img)) = Ok probs ->
  predict_with src img self = (bucketize probs (get_labels src probs), self).
Proof. unfold predict. now intros -> ->. Qed.

Lemma predict_inv (src : option (list string)) (img : Image)
    (self : AnimalClassifier Net) (res : list (string * R)) :
  fst (predict_with src img self) = Ok res ->
  exists net probs,
    model Net self = Some net /\
    softmax (forward net (preprocess img)) = Ok probs /\
    bucketize probs (get_labels src probs) = Ok res.
Proof.
  unfold predict. cbn [fst].
  destruct (model Net self) as [net |]; [| discriminate].
  destruct (softmax (forward net (preprocess img))) as [probs |] eqn:Es;
    cbn [bind]; [| discriminate].
  intro E. exists net, probs. repeat split; assumption.
Qed.

(** C1. Whenever [predict] returns a list, each of its scores lies in the
    interval [0,1] and the scores are non-increasing along the list. *)
Theorem predict_scores_sorted (src : option (list string)) (img : Image)
    (self : AnimalClassifier Net) (res : list (string * R)) :
  fst (predict_with src img self) = Ok res ->
  Forall (fun entry => (0 <= snd entry <= 1)%R) res /\
  StronglySorted (fun a b => (snd b <= snd a)%R) res.
Proof.
  intro E. destruct (predict_inv src img self res E) as [net [probs [_ [Es Eb]]]].
  split.
  - apply Forall_forall. intros [b s] Hin. cbn [snd].
    destruct (result_matches _ _ res b s Eb Hin) as [idx [_ [l [ks [_ [Ep _]]]]]].
    apply (softmax_range _ probs s Es). now apply nth_error_In with idx.
  - eapply StronglySorted_weaken; [| exact (result_sorted _ _ res Eb)].
    intros a b _ _. apply sle_R.
Qed.

(** C8. In every list that [predict] returns, the bucket names, carried as
    the labels of the entries, are pairwise distinct. *)
Theorem predict_names_distinct (src : option (list string)) (img : Image)
    (self : AnimalClassifier Net) (res : list (string * R)) :
  fst (predict_with src img self) = Ok res -> NoDup (map fst res).
Proof.
  intro E. destruct (predict_inv src img self res E) as [net [probs [_ [_ Eb]]]].
  exact (result_NoDup _ _ res Eb).
Qed.

Lemma predict_returns (src : option (list string)) (img : Image)
    (self : AnimalClassifier Net) (net : Net) (probs : list R) :
  model Net self = Some net ->
  softmax (forward net (preprocess img)) = Ok probs ->
  (forall idx, In idx (top20 probs) ->
     idx < List.length (get_labels src probs)) ->
  predict_with src img self =
  (Ok (sorted snd true (found_of probs (get_labels src probs))), self).
Proof.
  intros Em Es R. rewrite (predict_loaded src img self net probs Em Es).
  now rewrite bucketize_ok.
Qed.

Lemma any_keyword_false (ks : list string) (label : string) :
  (forall k, In k ks -> contains k label = false) -> any_keyword ks label = false.
Proof.
  intro N. apply not_true_is_false. intro E.
  apply existsb_exists in E. destruct E as [k [Hk C]].
  rewrite (N k Hk) in C. discriminate.
Qed.

(** C2. A bucket that some selected class matches has an entry, and the score
    of the entry is the largest probability among the selected classes that
    match the bucket: it is the probability of one of them and no other one
    exceeds it. When exactly two selected classes match the bucket, the entry
    carries the larger of their two probabilities; that is not their sum
    unless one of the two is zero. *)
Theorem predict_keeps_max (src : option (list string)) (img : Image)
    (self : AnimalClassifier Net) (net : Net) (probs : list R)
    (res : list (string * R)) :
  model Net self = Some net ->
  softmax (forward net (preprocess img)) = Ok probs ->
  fst (predict_with src img self) = Ok res ->
  (forall b idx p,
     In idx (top20 probs) -> matches probs (get_labels src probs) idx b p ->
     exists s,
       In (b, s) res /\
       (exists j, In j (top20 probs) /\ matches probs (get_labels src probs) j b s) /\
       (forall j q, In j (top20 probs) ->
          matches probs (get_labels src probs) j b q -> (q <= s)%R)) /\
  (forall b i j p q,
     In i (top20 probs) -> matches probs (get_labels src probs) i b p ->
     In j (top20 probs) -> matches probs (get_labels src probs) j b q ->
     (forall k r, In k (top20 probs) ->
        matches probs (get_labels src probs) k b r -> k = i \/ k = j) ->
     In (b, Rmax p q) res /\
     ((0 < p)%R -> (0 < q)%R -> Rmax p q <> (p + q)%R)).
Proof.
  intros Em Es E. rewrite (predict_loaded src img self net probs Em Es) in E.
  cbn [fst] in E.
  assert (General : forall b idx p,
     In idx (top20 probs) -> matches probs (get_labels src probs) idx b p ->
     exists s,
       In (b, s) res /\
       (exists j, In j (top20 probs) /\ matches probs (get_labels src probs) j b s) /\
       (forall j q, In j (top20 probs) ->
          matches probs (get_labels src probs) j b q -> (q <= s)%R)).
  { intros b idx p Hidx M.
    destruct (result_covers _ _ res b p idx E Hidx M) as [s Hin].
    exists s. split; [assumption |]. split.
    - exact (result_matches _ _ res b s E Hin).
    - intros j q Hj Mj. apply sle_R.
      exact (result_upper _ _ res b s q j E Hin Hj Mj). }
  split; [exact General |].
  intros b i j p q Hi Mi Hj Mj Only.
  destruct (General b i p Hi Mi) as [s [Hin [[k [Hk Mk]] Up]]].
  pose proof (Up i p Hi Mi) as Lp. pose proof (Up j q Hj Mj) as Lq.
  assert (Es' : s = Rmax p q).
  { assert (Hs : s = p \/ s = q).
    { destruct (Only k s Hk Mk) as [-> | ->].
      - left. destruct Mk as [? [? [_ [A _]]]]. destruct Mi as [? [? [_ [B _]]]].
        congruence.
      - right. destruct Mk as [? [? [_ [A _]]]]. destruct Mj as [? [? [_ [B _]]]].
        congruence. }
    unfold Rmax. destruct (Rle_dec p q); destruct Hs; lra. }
  rewrite <- Es'. split; [assumption |].
  intros Pp Pq. rewrite Es'. unfold Rmax. destruct (Rle_dec p q); lra.
Qed.

(** C3. With the placeholder labels [class_<index>], a loaded classifier
    returns the empty list on every image: no keyword of the table occurs in
    a placeholder. *)
Theorem predict_placeholders (img : Image) (self : AnimalClassifier Net) (net : Net) :
  model Net self = Some net ->
  forward net (preprocess img) <> [] ->
  predict_with None img self = (Ok [], self) /\
  (forall i b ks k,
     In (b, ks) ANIMAL_BUCKETS -> In k ks ->
     contains k (lower (placeholder i)) = false).
Proof.
  intros Em N. split.
  - destruct (softmax_ok _ N) as [m Emax].
    pose proof (softmax_eq _ m Emax) as Es.
    set (probs := map _ _) in Es.
    assert (Lab : forall idx, idx < List.length probs ->
              nth_error (get_labels None probs) idx = Some (placeholder idx)).
    { intros idx L. cbn [get_labels]. unfold fallback_labels.
      rewrite nth_error_map, (nth_error_nth' _ 0) by now rewrite length_seq.
      now rewrite seq_nth. }
    rewrite (predict_returns None img self net probs Em Es).
    + rewrite result_empty; [reflexivity |].
      intros idx b s Hin [l [ks [El [_ [Hb Hk]]]]].
      rewrite Lab in El by now apply top20_bound.
      injection El as <-.
      rewrite (placeholder_no_keyword idx b ks Hb) in Hk. discriminate.
    + intros idx Hin. cbn [get_labels]. unfold fallback_labels.
      rewrite length_map, length_seq. now apply top20_bound.
  - intros i b ks k Hb Hk.
    pose proof (placeholder_no_keyword i b ks Hb) as F.
    unfold any_keyword in F.
    destruct (contains k (lower (placeholder i))) eqn:C; [| reflexivity].
    rewrite <- F. symmetry. apply existsb_exists. now exists k.
Qed.

(** C4. When one class has a probability strictly above all others and its
    label, once in lower case as line 87 puts it, contains "labrador" (so for
    "Labrador retriever" as for "labrador retriever"), the result starts with
    the entry of bucket "Dog", whose score is the probability of that
    class. *)
Theorem predict_labrador_first (src : option (list string)) (img : Image)
    (self : AnimalClassifier Net) (net : Net) (probs : list R)
    (i : nat) (p : R) (l : string) :
  model Net self = Some net ->
  softmax (forward net (preprocess img)) = Ok probs ->
  nth_error probs i = Some p ->
  (forall j q, j <> i -> nth_error probs j = Some q -> (q < p)%R) ->
  nth_error (get_labels src probs) i = Some l ->
  contains "labrador" (lower l) = true ->
  List.length probs <= List.length (get_labels src probs) ->
  exists rest, predict_with src img self = (Ok (("Dog"%string, p) :: rest), self).
Proof.
  intros Em Es Ep Top El C Len.
  rewrite (predict_loaded src img self net probs Em Es).
  destruct (result_head probs (get_labels src probs) i p l) as [rest E];
    try assumption.
  - split; [assumption |]. intros j q Nj Eq. apply Rltb_true. now apply (Top j).
  - intros idx Hin. apply top20_bound in Hin. lia.
  - exists rest. now rewrite E.
Qed.

(** C5. When no selected class has a label that contains a keyword,
    [predict] returns the empty list and raises nothing. *)
Theorem predict_no_match (src : option (list string)) (img : Image)
    (self : AnimalClassifier Net) (net : Net) (probs : list R) :
  model Net self = Some net ->
  softmax (forward net (preprocess img)) = Ok probs ->
  (forall idx, In idx (top20 probs) ->
     exists l, nth_error (get_labels src probs) idx = Some l /\
       forall b ks k, In (b, ks) ANIMAL_BUCKETS -> In k ks ->
                      contains k (lower l) = false) ->
  predict_with src img self = (Ok [], self).
Proof.
  intros Em Es None.
  rewrite (predict_returns src img self net probs Em Es).
  - rewrite result_empty; [reflexivity |].
    intros idx b s Hin [l [ks [El [_ [Hb Hk]]]]].
    destruct (None idx Hin) as [l' [El' N]].
    rewrite El in El'. injection El' as <-.
    rewrite (any_keyword_false ks (lower l)) in Hk; [discriminate |].
    intros k Hin'. now apply (N b ks).
  - intros idx Hin. destruct (None idx Hin) as [l [El _]].
    apply nth_error_Some. congruence.
Qed.

(** C10. The result has at most one entry per bucket of the table, which has
    16 buckets, hence at most 16 entries; and each score is the probability of
    a selected class whose lower-case label contains a keyword of the
    bucket. *)
Theorem predict_one_entry_per_bucket (src : option (list string)) (img : Image)
    (self : AnimalClassifier Net) (net : Net) (probs : list R)
    (res : list (string * R)) :
  model Net self = Some net ->
  softmax (forward net (preprocess img)) = Ok probs ->
  fst (predict_with src img self) = Ok res ->
  NoDup (map fst res) /\
  incl (map fst res) (map fst ANIMAL_BUCKETS) /\
  List.length ANIMAL_BUCKETS = 16 /\
  List.length res <= 16 /\
  (forall b s, In (b, s) res ->
     exists idx l ks k,
       In idx (top20 probs) /\
       nth_error probs idx = Some s /\
       nth_error (get_labels src probs) idx = Some l /\
       In (b, ks) ANIMAL_BUCKETS /\ In k ks /\ contains k (lower l) = true).
Proof.
  intros Em Es E. rewrite (predict_loaded src img self net probs Em Es) in E.
  cbn [fst] in E. repeat split.
  - exact (result_NoDup _ _ res E).
  - exact (result_buckets _ _ res E).
  - exact (result_length _ _ res E).
  - intros b s Hin.
    destruct (result_matches _ _ res b s E Hin) as [idx [Hidx [l [ks [El [Ep [Hb Hk]]]]]]].
    apply existsb_exists in Hk. destruct Hk as [k [Hk C]].
    exists idx, l, ks, k. repeat split; assumption.
Qed.

(** C6, amended. The classes that the loop visits are the first 20 of the
    descending ranking of the probabilities, all of them when the model has
    fewer than 20 classes: [min 20 n] distinct classes, in non-increasing
    order of probability, and no class that is left out has a higher
    probability than a visited one. The order among equal probabilities is
    the one of [np.argsort]. *)
Theorem predict_selects_top20 (src : option (list string)) (img : Image)
    (self : AnimalClassifier Net) (net : Net) (probs : list R) :
  model Net self = Some net ->
  softmax (forward net (preprocess img)) = Ok probs ->
  predict_with src img self =
    (found <- scan_topk probs (get_labels src probs) (top20 probs) [] ;;
     Ok (sorted snd true found), self) /\
  top20 probs = firstn 20 (List.rev (argsort probs)) /\
  List.length (top20 probs) = Nat.min 20 (List.length probs) /\
  NoDup (top20 probs) /\
  (forall i, In i (top20 probs) -> i < List.length probs) /\
  (forall i j x y,
     In i (top20 probs) -> j < List.length probs -> ~ In j (top20 probs) ->
     nth_error probs j = Some x -> nth_error probs i = Some y -> (x <= y)%R) /\
  StronglySorted
    (fun i j => forall x y,
       nth_error probs i = Some x -> nth_error probs j = Some y -> (y <= x)%R)
    (top20 probs).
Proof.
  intros Em Es. repeat split.
  - now rewrite (predict_loaded src img self net probs Em Es).
  - apply top20_firstn.
  - apply top20_length.
  - apply top20_NoDup.
  - apply top20_bound.
  - intros i j x y Hi Hj Nj Ex Ey. apply sle_R.
    exact (top20_highest probs i j Hi Hj Nj x y Ex Ey).
  - eapply StronglySorted_weaken; [| apply top20_sorted].
    intros i j _ _ Le x y Ex Ey. apply sle_R. exact (Le y x Ey Ex).
Qed.

End Claims.

(** C6, as stated: a model with three classes has three selected classes,
    not 20. *)
Lemma three_classes_select_three :
  exists probs : list R,
    softmax [0; 0; 0]%R = Ok probs /\
    List.length (top20 (H0 := Stable_ArgSort) probs) = 3 /\
    List.length (top20 (H0 := Stable_ArgSort) probs) <> 20.
Proof.
  destruct (softmax_ok [0; 0; 0]%R) as [m Em]; [discriminate |].
  eexists. split; [apply (softmax_eq _ m Em) |].
  rewrite top20_length, !length_map. cbn. split; [reflexivity | discriminate].
Qed.

(** * A two-class model, run through the theorems *)

(** A model that answers every image with the logits it holds. *)
Definition demo_forward (net : list R) (_ : unit) : list R := net.

Definition demo_create (_ : string) : result (list R) := Ok [1; 0]%R.

(** The classifier after [__init__] and [_load]. *)
Definition demo_self : AnimalClassifier (list R) :=
  snd (_load (list R) demo_create (__init__ (list R) "resnet34")).

Definition demo_predict (src : option (list string)) :
  result (list (string * R)) * AnimalClassifier (list R) :=
  predict unit unit (list R) (fun img => img) demo_forward src
    (AS := Stable_ArgSort) tt demo_self.

Definition cat_labels : list string := ["Siamese cat"; "tabby"]%string.
Definition dog_labels : list string := ["Labrador retriever"; "tabby"]%string.
Definition plain_labels : list string := ["volcano"; "teapot"]%string.

(** No keyword of the table occurs in the lower-case form of the label. *)
Definition no_keyword (label : string) : bool :=
  forallb (fun item => forallb (fun k => negb (contains k (lower label))) (snd item))
          ANIMAL_BUCKETS.

Lemma no_keyword_spec (label : string) :
  no_keyword label = true ->
  forall b ks k, In (b, ks) ANIMAL_BUCKETS -> In k ks ->
                 contains k (lower label) = false.
Proof.
  unfold no_keyword. rewrite forallb_forall. intros A b ks k Hb Hk.
  specialize (A _ Hb). cbn [snd] in A. rewrite forallb_forall in A.
  now apply negb_true_iff, A.
Qed.

Lemma top20_small {S : Type} `{ArgSort S} (v : list S) (i : nat) :
  List.length v <= 20 -> In i (top20 v) <-> i < List.length v.
Proof.
  intro L. rewrite top20_firstn, firstn_all2.
  - rewrite <- in_rev. apply argsort_In.
  - now rewrite length_rev, argsort_length.
Qed.

Lemma demo_softmax :
  exists p q : R, softmax [1; 0]%R = Ok [p; q] /\ (q < p)%R.
Proof.
  destruct (softmax_ok [1; 0]%R) as [m Em]; [discriminate |].
  pose proof (softmax_eq _ m Em) as Es. cbn [shifted map] in Es.
  eexists. eexists. split; [exact Es |].
  now apply (softmax_increasing [1; 0]%R _ 1 0 0%R 1%R _ _ Es); try lra.
Qed.

Lemma predict_scores_sorted_witness :
  exists res,
    fst (demo_predict (Some cat_labels)) = Ok res /\
    Forall (fun entry => (0 <= snd entry <= 1)%R) res /\
    StronglySorted (fun a b => (snd b <= snd a)%R) res.
Proof.
  destruct demo_softmax as [p [q [Es _]]].
  assert (E : fst (demo_predict (Some cat_labels)) =
              Ok (sorted snd true (found_of [p; q] cat_labels))).
  { unfold demo_predict.
    rewrite (predict_returns unit unit (list R) _ _ _ tt demo_self [1; 0]%R [p; q]
               eq_refl Es); [reflexivity |].
    intros idx Hin. apply top20_bound in Hin. exact Hin. }
  eexists. split; [exact E |].
  exact (predict_scores_sorted unit unit (list R) _ _ _ tt demo_self _ E).
Defined.

Lemma demo_returns (labels : list string) (p q : R) :
  softmax [1; 0]%R = Ok [p; q] ->
  List.length labels = 2 ->
  demo_predict (Some labels) =
  (Ok (sorted snd true (found_of [p; q] labels)), demo_self).
Proof.
  intros Es L. unfold demo_predict.
  apply (predict_returns unit unit (list R) (fun img => img) demo_forward
           (Some labels) tt demo_self [1; 0]%R [p; q] eq_refl Es).
  intros idx Hin. apply top20_bound in Hin. cbn [get_labels]. rewrite L. exact Hin.
Qed.

Lemma demo_top20 (p q : R) (idx : nat) :
  In idx (top20 (H0 := Stable_ArgSort) [p; q]) <-> idx < 2.
Proof. apply (top20_small [p; q]). cbn. lia. Qed.

Lemma predict_keeps_max_witness :
  exists res p q,
    fst (demo_predict (Some cat_labels)) = Ok res /\
    In ("Cat"%string, Rmax p q) res.
Proof.
  destruct demo_softmax as [p [q [Es _]]].
  pose proof (f_equal fst (demo_returns cat_labels p q Es eq_refl)) as E.
  cbn [fst] in E.
  eexists. exists p, q. split; [exact E |].
  apply (proj2 (predict_keeps_max unit unit (list R) _ _ (Some cat_labels) tt
                  demo_self [1; 0]%R [p; q] _ eq_refl Es E)
           "Cat"%string 0 1 p q).
  - apply demo_top20. lia.
  - exists "Siamese cat"%string. eexists.
    split; [reflexivity |]. split; [reflexivity |].
    split; [right; left; reflexivity | reflexivity].
  - apply demo_top20. lia.
  - exists "tabby"%string. eexists.
    split; [reflexivity |]. split; [reflexivity |].
    split; [right; left; reflexivity | reflexivity].
  - intros k r Hk _. apply demo_top20 in Hk. lia.
Defined.

Lemma predict_placeholders_witness :
  demo_predict None = (Ok [], demo_self).
Proof.
  refine (proj1 (predict_placeholders unit unit (list R) _ _ tt demo_self
                   [1; 0]%R eq_refl _)).
  discriminate.
Defined.

Lemma predict_labrador_first_witness :
  exists p rest,
    demo_predict (Some dog_labels) = (Ok (("Dog"%string, p) :: rest), demo_self).
Proof.
  destruct demo_softmax as [p [q [Es L]]]. exists p.
  apply (predict_labrador_first unit unit (list R) _ _ (Some dog_labels) tt
           demo_self [1; 0]%R [p; q] 0 p "Labrador retriever"%string eq_refl Es
           eq_refl).
  - intros [| [| j]] r Nj Er; [congruence | | destruct j; discriminate].
    injection Er as <-. exact L.
  - reflexivity.
  - reflexivity.
  - cbn. lia.
Defined.

Lemma predict_no_match_witness :
  demo_predict (Some plain_labels) = (Ok [], demo_self).
Proof.
  destruct demo_softmax as [p [q [Es _]]].
  apply (predict_no_match unit unit (list R) _ _ (Some plain_labels) tt
           demo_self [1; 0]%R [p; q] eq_refl Es).
  intros idx Hin. apply demo_top20 in Hin.
  destruct idx as [| [| idx]]; [| | lia].
  - exists "volcano"%string. split; [reflexivity |].
    apply no_keyword_spec. vm_compute. reflexivity.
  - exists "teapot"%string. split; [reflexivity |].
    apply no_keyword_spec. vm_compute. reflexivity.
Defined.

Lemma predict_selects_top20_witness :
  exists probs,
    softmax [1; 0]%R = Ok probs /\
    List.length (top20 (H0 := Stable_ArgSort) probs) = 2.
Proof.
  destruct demo_softmax as [p [q [Es _]]].
  exists [p; q]. split; [exact Es |].
  exact (proj1 (proj2 (proj2
           (predict_selects_top20 unit unit (list R) (fun img => img) demo_forward
              None tt demo_self [1; 0]%R [p; q] eq_refl Es)))).
Defined.

Lemma predict_names_distinct_witness :
  exists res,
    fst (demo_predict (Some cat_labels)) = Ok res /\ NoDup (map fst res).
Proof.
  destruct demo_softmax as [p [q [Es _]]].
  pose proof (f_equal fst (demo_returns cat_labels p q Es eq_refl)) as E.
  cbn [fst] in E.
  eexists. split; [exact E |].
  exact (predict_names_distinct unit unit (list R) _ _ _ tt demo_self _ E).
Defined.

Lemma predict_one_entry_per_bucket_witness :
  exists res,
    fst (demo_predict (Some cat_labels)) = Ok res /\
    NoDup (map fst res) /\ List.length res <= 16.
Proof.
  destruct demo_softmax as [p [q [Es _]]].
  pose proof (f_equal fst (demo_returns cat_labels p q Es eq_refl)) as E.
  cbn [fst] in E.
  destruct (predict_one_entry_per_bucket unit unit (list R) _ _
              (Some cat_labels) tt demo_self [1; 0]%R [p; q] _ eq_refl Es E)
    as [Nd [_ [_ [Len _]]]].
  eexists. split; [exact E |]. split; assumption.
Defined.

(** * The pipeline on rational scores *)

Example two_cats_keep_the_larger :
  bucketize (H0 := Stable_ArgSort) [1 # 10; 6 # 10; 3 # 10]%Q
    ["goldfish"; "Siamese cat"; "tabby cat"]%string
  = Ok [("Cat"%string, 6 # 10); ("Fish"%string, 1 # 10)]%Q.
Proof. vm_compute. reflexivity. Qed.

Example one_label_two_buckets :
  bucketize (H0 := Stable_ArgSort) [1 # 2; 1 # 2]%Q
    ["catfish"; "Labrador retriever"]%string
  = Ok [("Dog"%string, 1 # 2); ("Cat"%string, 1 # 2); ("Fish"%string, 1 # 2)]%Q.
Proof. vm_compute. reflexivity. Qed.

Example missing_label_raises :
  bucketize (H0 := Stable_ArgSort) [1 # 2; 1 # 2]%Q ["catfish"]%string
  = Raise IndexError.
Proof. vm_compute. reflexivity. Qed.

Example ties_follow_argsort :
  top20 (H0 := Stable_ArgSort) [1 # 2; 1 # 4; 1 # 4; 3 # 4]%Q = [3; 0; 2; 1].
Proof. vm_compute. reflexivity. Qed.

Example twenty_of_twenty_five :
  top20 (H0 := Stable_ArgSort) (map (fun n => Z.of_nat n # 100)%Q (seq 0 25))
  = List.rev (seq 5 20).
Proof. vm_compute. reflexivity. Qed.

Example placeholders_give_nothing :
  bucketize (H0 := Stable_ArgSort) [1 # 2; 1 # 4; 1 # 4]%Q (fallback_labels 3)
  = Ok [].
Proof. vm_compute. reflexivity. Qed.

(** * Further properties of the code *)

(** ** The substring test and the letter case *)

Lemma prefix_append (k s : string) :
  String.prefix k s = true <-> exists post, s = String.append k post.
Proof.
  revert s. induction k as [| a k IH]; intro s.
  - split; [intros _; now exists s | intros _; now destruct s].
  - destruct s as [| b s]; cbn [String.prefix String.append].
    + split; [discriminate | intros [post E]; discriminate].
    + destruct (ascii_dec a b) as [-> | N].
      * rewrite IH. split; intros [post E]; exists post; [now rewrite E |].
        now injection E.
      * split; [discriminate | intros [post E]; injection E; congruence].
Qed.

Lemma contains_split (k s : string) :
  contains k s = true <->
  exists pre post, s = String.append pre (String.append k post).
Proof.
  induction s as [| c s IH]; cbn [contains]; rewrite orb_true_iff, prefix_append.
  - split.
    + intros [[post E] | F]; [| discriminate]. now exists EmptyString, post.
    + intros [pre [post E]]. left. destruct pre as [| a pre]; [| discriminate].
      now exists post.
  - rewrite IH. split.
    + intros [[post E] | [pre [post E]]].
      * now exists EmptyString, post.
      * exists (String c pre), post. cbn [String.append]. now rewrite E.
    + intros [[| a pre] [post E]].
      * left. now exists post.
      * right. cbn [String.append] in E. injection E as _ E. now exists pre, post.
Qed.

Lemma append_assoc (a b c : string) :
  String.append (String.append a b) c = String.append a (String.append b c).
Proof. induction a as [| x a IH]; cbn [String.append]; [reflexivity | now rewrite IH]. Qed.

Lemma contains_trans (a b s : string) :
  contains a b = true -> contains b s = true -> contains a s = true.
Proof.
  rewrite !contains_split.
  intros [p1 [q1 ->]] [p2 [q2 ->]].
  exists (String.append p2 p1), (String.append q1 q2).
  now rewrite !append_assoc.
Qed.

(** X1. The test [k in s] of line 91 is the substring test: it holds exactly
    when [s] is [k] with some text before it and some text after it. Hence a
    keyword that occurs in another keyword matches wherever that one does,
    and the empty keyword would match every label. *)
Theorem contains_substring (k s : string) :
  (contains k s = true <->
   exists pre post, s = String.append pre (String.append k post)) /\
  (forall k', contains k' k = true -> contains k s = true ->
              contains k' s = true) /\
  contains EmptyString s = true /\
  contains s s = true.
Proof.
  split; [apply contains_split |]. split; [| split].
  - intros k' A B. now apply contains_trans with k.
  - apply contains_split. now exists EmptyString, s.
  - apply contains_split. exists EmptyString, EmptyString.
    cbn [String.append]. clear k.
    induction s as [| c s IH]; cbn [String.append]; [reflexivity | now f_equal].
Qed.

Lemma keywords_lower_case :
  forallb (fun item => forallb (fun k => String.eqb (lower k) k) (snd item))
          ANIMAL_BUCKETS = true.
Proof. vm_compute. reflexivity. Qed.

(** X2. Matching ignores the letter case of the label: a label that contains
    a keyword of a bucket, written in any mix of upper and lower case,
    matches the bucket. *)
Theorem keyword_any_case (b : string) (ks : list string) (k k' label : string) :
  In (b, ks) ANIMAL_BUCKETS -> In k ks ->
  lower k' = lower k ->
  contains k' label = true ->
  any_keyword ks (lower label) = true.
Proof.
  intros Hb Hk E C.
  pose proof keywords_lower_case as T. rewrite forallb_forall in T.
  specialize (T _ Hb). cbn [snd] in T. rewrite forallb_forall in T.
  specialize (T k Hk). apply String.eqb_eq in T.
  apply existsb_exists. exists k. split; [assumption |].
  rewrite <- T, <- E. now apply contains_lower.
Qed.

Lemma keyword_any_case_witness :
  any_keyword ["hare"; "rabbit"]%string (lower "Angora RABBIT") = true.
Proof.
  apply (keyword_any_case "Rabbit" ["hare"; "rabbit"]%string "rabbit" "RABBIT"
           "Angora RABBIT").
  - do 8 right. left. reflexivity.
  - right. left. reflexivity.
  - reflexivity.
  - reflexivity.
Defined.

(** ** The stable sort keeps ties in their order *)

Section StableFacts.
Context {A : Type} (lt : A -> A -> bool) (P : A -> bool).
Hypothesis lt_asym : forall x y, lt x y = true -> lt y x = false.
Hypothesis ge_trans : forall x y z, lt x y = false -> lt y z = false -> lt x z = false.
Hypothesis P_class : forall x y, P x = true -> P y = true -> lt x y = false.

Lemma insert_filter (x : A) (l : list A) :
  StronglySorted (ordered lt) l ->
  filter P (insert lt x l) = filter P l ++ (if P x then [x] else []).
Proof.
  induction 1 as [| y l Sl IH Fy]; cbn [insert filter].
  - now destruct (P x).
  - destruct (lt x y) eqn:L.
    + cbn [filter]. destruct (P x) eqn:Px; [| now rewrite app_nil_r].
      assert (None : forall z, In z (y :: l) -> P z = false).
      { intros z Hz. destruct (P z) eqn:Pz; [exfalso | reflexivity].
        assert (Lxz : lt x z = false) by now apply P_class.
        destruct Hz as [<- | Hz]; [congruence |].
        rewrite Forall_forall in Fy. specialize (Fy z Hz). unfold ordered in Fy.
        rewrite (ge_trans x z y Lxz Fy) in L. discriminate. }
      assert (E : filter P (y :: l) = []).
      { clear - None. induction (y :: l) as [| z t IHt]; [reflexivity |].
        cbn [filter]. rewrite (None z (or_introl eq_refl)).
        apply IHt. intros w Hw. apply None. now right. }
      cbn [filter] in E. now rewrite E.
    + cbn [filter]. rewrite IH. now destruct (P y).
Qed.

Lemma isort_filter (xs acc : list A) :
  StronglySorted (ordered lt) acc ->
  filter P (isort lt xs acc) = filter P acc ++ filter P xs.
Proof.
  revert acc. induction xs as [| x xs IH]; intros acc Sa; cbn [isort fold_left filter].
  - now rewrite app_nil_r.
  - change (fold_left (fun acc x => insert lt x acc) xs (insert lt x acc))
      with (isort lt xs (insert lt x acc)).
    rewrite IH by now apply insert_sorted.
    rewrite insert_filter by assumption.
    rewrite <- app_assoc. now destruct (P x).
Qed.

End StableFacts.

(** The scores that neither precede nor follow [c]. *)
Definition ties {S : Type} `{Score S} (c x : S) : bool :=
  negb (ltb c x) && negb (ltb x c).

(** X3. [sorted] is stable in both directions: the elements whose key ties
    with a given score come out in the order they went in, also with
    [reverse=True]. *)
Theorem sorted_stable {S : Type} `{Score S} {A : Type} (key : A -> S)
    (reverse : bool) (xs : list A) (c : S) :
  filter (fun x => ties c (key x)) (sorted key reverse xs) =
  filter (fun x => ties c (key x)) xs.
Proof.
  assert (Tie : forall x y : S, ties c x = true -> ties c y = true -> ltb x y = false).
  { unfold ties. intros x y Tx Ty.
    apply andb_true_iff in Tx, Ty. destruct Tx as [_ Tx]. destruct Ty as [Ty _].
    apply negb_true_iff in Tx, Ty. exact (geb_trans x c y Tx Ty). }
  unfold sorted. destruct reverse.
  - change (filter (fun x => ties c (key x)) xs)
      with ([] ++ filter (fun x => ties c (key x)) xs).
    apply (isort_filter (fun x y => ltb (key y) (key x))).
    + intros x y. apply ltb_asym.
    + intros x y z Hxy Hyz. exact (geb_trans _ _ _ Hyz Hxy).
    + intros x y Px Py. now apply Tie.
    + constructor.
  - change (filter (fun x => ties c (key x)) xs)
      with ([] ++ filter (fun x => ties c (key x)) xs).
    apply (isort_filter (fun x y => ltb (key x) (key y))).
    + intros x y. apply ltb_asym.
    + intros x y z. apply geb_trans.
    + intros x y Px Py. now apply Tie.
    + constructor.
Qed.

(** ** One label against the table *)

Section TableFacts.
Context {S : Type} `{Score S}.

Lemma scan_table_frame (table : list (string * list string)) (label : string)
    (score : S) (found : @dict S) (b : string) :
  ~ In b (map fst table) ->
  dict_get (scan_table table label score found) b = dict_get found b.
Proof.
  revert found. induction table as [| [b' ks'] table IH]; intros found N;
    [reflexivity |].
  unfold scan_table in *. cbn [fold_left fst snd].
  rewrite IH by (intro F; apply N; now right).
  rewrite scan_keywords_any. destruct (any_keyword ks' label); [| reflexivity].
  rewrite get_keep_max. destruct (String.eqb_spec b' b) as [-> | _]; [| reflexivity].
  exfalso. apply N. now left.
Qed.

Lemma scan_table_get_general (table : list (string * list string)) (label : string)
    (score : S) (found : @dict S) (b : string) (ks : list string) :
  NoDup (map fst table) -> In (b, ks) table ->
  dict_get (scan_table table label score found) b =
  if any_keyword ks label then
    match dict_get found b with
    | Some old => if ltb old score then Some score else Some old
    | None => Some score
    end
  else dict_get found b.
Proof.
  revert found. induction table as [| [b' ks'] table IH]; intros found Nd Hin;
    [contradiction |].
  cbn [map fst] in Nd. inversion Nd as [| ? ? Nb Nd']; subst.
  destruct Hin as [E | Hin].
  - injection E as -> ->.
    change (scan_table ((b, ks) :: table) label score found)
      with (scan_table table label score (scan_keywords label score b ks found)).
    rewrite scan_table_frame by assumption.
    rewrite scan_keywords_any. destruct (any_keyword ks label); [| reflexivity].
    now rewrite get_keep_max, String.eqb_refl.
  - change (scan_table ((b', ks') :: table) label score found)
      with (scan_table table label score (scan_keywords label score b' ks' found)).
    rewrite (IH _ Nd' Hin).
    assert (Nbb : b' <> b).
    { intros ->. apply Nb. change b with (fst (b, ks)). now apply in_map. }
    assert (G : dict_get (scan_keywords label score b' ks' found) b = dict_get found b).
    { rewrite scan_keywords_any. destruct (any_keyword ks' label); [| reflexivity].
      rewrite get_keep_max. now destruct (String.eqb_spec b' b). }
    now rewrite G.
Qed.

Lemma table_names_distinct : NoDup (map fst ANIMAL_BUCKETS).
Proof.
  apply (NoDup_count_occ' string_dec).
  intros x Hx. cbn [map fst ANIMAL_BUCKETS] in Hx.
  repeat (destruct Hx as [<- | Hx]; [vm_compute; reflexivity |]). contradiction.
Qed.

End TableFacts.

(** X4. One pass of the table loop (lines 89-94) for a label and its score:
    a bucket with a keyword in the label ends with the larger of its old score
    and the new one (the old one on a tie, the new one when it had none); every
    other bucket, and every key that is no bucket, keeps what it had. *)
Theorem scan_table_get {S : Type} `{Score S} (label : string) (score : S)
    (found : @dict S) (b : string) :
  (forall ks, In (b, ks) ANIMAL_BUCKETS ->
     dict_get (scan_table ANIMAL_BUCKETS label score found) b =
     if any_keyword ks label then
       match dict_get found b with
       | Some old => if ltb old score then Some score else Some old
       | None => Some score
       end
     else dict_get found b) /\
  (~ In b (map fst ANIMAL_BUCKETS) ->
     dict_get (scan_table ANIMAL_BUCKETS label score found) b = dict_get found b).
Proof.
  split.
  - intros ks Hin. apply scan_table_get_general; [| assumption].
    exact table_names_distinct.
  - apply scan_table_frame.
Qed.

(** ** Which labels the loop reads *)

Section LabelFacts.
Context {S : Type} `{ArgSort S}.

Lemma scan_topk_agree (probs : list S) (labels1 labels2 : list string)
    (topk : list nat) (found : @dict S) :
  (forall idx, In idx topk ->
     option_map lower (nth_error labels1 idx) =
     option_map lower (nth_error labels2 idx)) ->
  scan_topk probs labels1 topk found = scan_topk probs labels2 topk found.
Proof.
  revert found. induction topk as [| idx rest IH]; intros found Agree;
    [reflexivity |].
  cbn [scan_topk]. unfold getitem.
  pose proof (Agree idx (or_introl eq_refl)) as E.
  destruct (nth_error labels1 idx) as [l1 |], (nth_error labels2 idx) as [l2 |];
    cbn [option_map] in E; try discriminate; cbn [bind]; [| reflexivity].
  injection E as ->.
  destruct (nth_error probs idx) as [p |]; cbn [bind]; [| reflexivity].
  apply IH. intros j Hj. apply Agree. now right.
Qed.

(** X5. The result depends on the labels through the lower-case forms of the
    labels of the selected classes only: two label lists that agree there, up
    to letter case, give the same outcome, whatever else they hold. *)
Theorem bucketize_labels_agree (probs : list S) (labels1 labels2 : list string) :
  (forall idx, In idx (top20 probs) ->
     option_map lower (nth_error labels1 idx) =
     option_map lower (nth_error labels2 idx)) ->
  bucketize probs labels1 = bucketize probs labels2.
Proof.
  intro Agree. unfold bucketize.
  now rewrite (scan_topk_agree probs labels1 labels2 (top20 probs) [] Agree).
Qed.

(** The loop raises nothing but [IndexError], and does so as soon as a
    selected class has no label. *)
Lemma scan_topk_raises (probs : list S) (labels : list string) (topk : list nat)
    (found : @dict S) (e : exn) :
  scan_topk probs labels topk found = Raise e -> e = IndexError.
Proof.
  revert found. induction topk as [| idx rest IH]; intro found; cbn [scan_topk];
    [discriminate |].
  unfold getitem.
  destruct (nth_error labels idx); cbn [bind]; [| congruence].
  destruct (nth_error probs idx); cbn [bind]; [| congruence].
  apply IH.
Qed.

Lemma scan_topk_missing (probs : list S) (labels : list string) (topk : list nat)
    (found : @dict S) (idx : nat) :
  In idx topk -> List.length labels <= idx ->
  scan_topk probs labels topk found = Raise IndexError.
Proof.
  intros Hin L.
  destruct (scan_topk probs labels topk found) as [found' | e] eqn:E.
  - destruct (scan_topk_range probs labels topk found found' E idx Hin). lia.
  - now rewrite (scan_topk_raises _ _ _ _ _ E).
Qed.

End LabelFacts.

Lemma bucketize_labels_agree_witness :
  bucketize (H0 := Stable_ArgSort) [1 # 4; 3 # 4]%Q ["TABBY"; "Zebra"]%string =
  bucketize (H0 := Stable_ArgSort) [1 # 4; 3 # 4]%Q ["tabby"; "zebra"; "crate"]%string.
Proof.
  apply bucketize_labels_agree. intros idx Hin.
  apply (top20_small [1 # 4; 3 # 4]%Q) in Hin; [| cbn; lia].
  destruct idx as [| [| idx]]; [reflexivity | reflexivity | cbn in Hin; lia].
Defined.

(** ** Probabilities without ties *)

Lemma sorted_permutation_unique {A : Type} (R : A -> A -> Prop) (l1 l2 : list A) :
  (forall a b, In a l1 -> In b l1 -> R a b -> R b a -> a = b) ->
  StronglySorted R l1 -> StronglySorted R l2 -> Permutation l1 l2 -> l1 = l2.
Proof.
  revert l2. induction l1 as [| a t1 IH]; intros l2 Anti S1 S2 Pm.
  - apply Permutation_nil in Pm. now subst.
  - destruct l2 as [| b t2];
      [apply Permutation_sym, Permutation_nil in Pm; discriminate |].
    inversion S1 as [| ? ? S1' F1]; subst. inversion S2 as [| ? ? S2' F2]; subst.
    rewrite Forall_forall in F1, F2.
    assert (E : a = b).
    { assert (Ha : In a (b :: t2)) by (apply (Permutation_in a Pm); now left).
      assert (Hb : In b (a :: t1))
        by (apply (Permutation_in b (Permutation_sym Pm)); now left).
      destruct Ha as [Ha | Ha]; [now symmetry |].
      destruct Hb as [Hb | Hb]; [assumption |].
      apply Anti; [now left | now right | now apply F1 | now apply F2]. }
    subst b. f_equal. apply IH.
    + intros x y Hx Hy. apply Anti; now right.
    + assumption.
    + assumption.
    + now apply Permutation_cons_inv with a.
Qed.

(** X6. When no two classes have tied probabilities, every implementation of
    [np.argsort] ranks them alike, so the result does not depend on how ties
    would have been broken. *)
Theorem bucketize_any_argsort {S : Type} `{Score S} (AS1 AS2 : ArgSort S)
    (probs : list S) (labels : list string) :
  (forall i j x y, i <> j ->
     nth_error probs i = Some x -> nth_error probs j = Some y ->
     ltb x y = true \/ ltb y x = true) ->
  @argsort S _ AS1 probs = @argsort S _ AS2 probs /\
  @bucketize S _ AS1 probs labels = @bucketize S _ AS2 probs labels.
Proof.
  intro Strict.
  assert (E : @argsort S _ AS1 probs = @argsort S _ AS2 probs).
  { apply sorted_permutation_unique with
      (R := fun i j => forall x y,
              nth_error probs i = Some x -> nth_error probs j = Some y -> sle x y).
    - intros i j Hi Hj Rij Rji.
      destruct (Nat.eq_dec i j) as [-> | N]; [reflexivity | exfalso].
      apply argsort_In in Hi, Hj.
      destruct (nth_error probs i) as [x |] eqn:Ex;
        [| apply nth_error_None in Ex; lia].
      destruct (nth_error probs j) as [y |] eqn:Ey;
        [| apply nth_error_None in Ey; lia].
      specialize (Rij x y eq_refl eq_refl). specialize (Rji y x eq_refl eq_refl).
      unfold sle in Rij, Rji.
      destruct (Strict i j x y N Ex Ey) as [L | L]; congruence.
    - apply argsort_sorted.
    - apply argsort_sorted.
    - rewrite (@argsort_perm S _ AS1 probs).
      symmetry. apply (@argsort_perm S _ AS2 probs). }
  split; [exact E |].
  unfold bucketize, top20. now rewrite E.
Qed.

(** A ranking that breaks ties the other way: among equal values the larger
    index comes first. *)
Definition backward_argsort {S : Type} `{Score S} (v : list S) : list nat :=
  match v with
  | [] => []
  | d :: _ => sorted (fun i => nth i v d) false (List.rev (seq 0 (List.length v)))
  end.

Lemma backward_argsort_perm {S : Type} `{Score S} (v : list S) :
  Permutation (backward_argsort v) (seq 0 (List.length v)).
Proof.
  destruct v as [| d v]; [reflexivity |]. unfold backward_argsort.
  rewrite sorted_perm. symmetry. apply Permutation_rev.
Qed.

Lemma backward_argsort_sorted {S : Type} `{Score S} (v : list S) :
  StronglySorted
    (fun i j => forall x y, nth_error v i = Some x -> nth_error v j = Some y -> sle x y)
    (backward_argsort v).
Proof.
  destruct v as [| d v]; [constructor |].
  eapply StronglySorted_weaken; [| apply sorted_ascending_sorted].
  intros i j _ _ L x y Ex Ey. cbv beta in L.
  now rewrite (nth_error_nth _ _ d Ex), (nth_error_nth _ _ d Ey) in L.
Qed.

Definition Backward_ArgSort {S : Type} `{Score S} : ArgSort S :=
  {| argsort := backward_argsort;
     argsort_perm := backward_argsort_perm;
     argsort_sorted := backward_argsort_sorted |}.

Example rankings_differ_on_ties :
  top20 (H0 := Stable_ArgSort) [1 # 2; 1 # 2]%Q = [1; 0] /\
  top20 (H0 := Backward_ArgSort) [1 # 2; 1 # 2]%Q = [0; 1].
Proof. vm_compute. split; reflexivity. Qed.

Lemma bucketize_any_argsort_witness :
  bucketize (H0 := Stable_ArgSort) [1 # 4; 3 # 4]%Q ["tabby"; "zebra"]%string =
  bucketize (H0 := Backward_ArgSort) [1 # 4; 3 # 4]%Q ["tabby"; "zebra"]%string.
Proof.
  apply (bucketize_any_argsort Stable_ArgSort Backward_ArgSort).
  intros [| [| i]] [| [| j]] x y N Ex Ey; try congruence;
    cbn [nth_error] in Ex, Ey;
    try match goal with
        | E : nth_error [] ?k = Some _ |- _ => destruct k; discriminate
        end.
  - injection Ex as <-. injection Ey as <-. left. reflexivity.
  - injection Ex as <-. injection Ey as <-. right. reflexivity.
Defined.

(** ** More on the softmax *)

Section SoftmaxOrder.
Local Open Scope R_scope.

Lemma softmax_nth (logits probs : list R) (i : nat) (x : R) :
  softmax logits = Ok probs -> nth_error logits i = Some x ->
  exists m,
    np_max logits = Ok m /\
    nth_error probs i = Some (exp (x - m) / np_sum (shifted m logits)).
Proof.
  intros E Ex. pose proof (softmax_nonempty _ _ E) as N.
  destruct (softmax_ok logits N) as [m Em]. exists m. split; [assumption |].
  rewrite (softmax_eq logits m Em) in E. injection E as <-.
  unfold shifted at 2. rewrite map_map, nth_error_map, Ex. reflexivity.
Qed.

(** X7. The softmax never reverses the order of two logits: of two classes,
    the one with the smaller or equal logit has the smaller or equal
    probability. *)
Theorem softmax_order (logits probs : list R) (i j : nat) (x y p q : R) :
  softmax logits = Ok probs ->
  nth_error logits i = Some x -> nth_error logits j = Some y ->
  nth_error probs i = Some p -> nth_error probs j = Some q ->
  x <= y -> p <= q.
Proof.
  intros E Ex Ey Ep Eq [L | ->].
  - apply Rlt_le. now apply (softmax_increasing logits probs i j x y).
  - destruct (softmax_nth _ _ i y E Ex) as [m [Em Pi]].
    destruct (softmax_nth _ _ j y E Ey) as [m' [Em' Pj]].
    rewrite Em in Em'. injection Em' as <-.
    rewrite Ep in Pi. rewrite Eq in Pj. injection Pi as ->. injection Pj as ->.
    apply Rle_refl.
Qed.

End SoftmaxOrder.

Lemma softmax_order_witness :
  exists p q : R, softmax [1; 0]%R = Ok [p; q] /\ (q <= p)%R.
Proof.
  destruct demo_softmax as [p [q [Es _]]]. exists p, q. split; [exact Es |].
  apply (softmax_order [1; 0]%R [p; q] 1 0 0%R 1%R q p Es
           eq_refl eq_refl eq_refl eq_refl).
  lra.
Defined.

(** ** The first entry *)

Lemma find_filter {A : Type} (f : A -> bool) (l : list A) (x : A) :
  find f l = Some x -> exists rest, filter f l = x :: rest.
Proof.
  induction l as [| y l IH]; cbn [find filter]; [discriminate |].
  destruct (f y); [intro E; injection E as ->; now eexists | exact IH].
Qed.

Section FirstFacts.
Context {S : Type} `{ArgSort S}.

Lemma bucketize_first (probs : list S) (labels : list string)
    (i : nat) (p : S) (l b : string) (ks : list string) :
  single_highest probs i p ->
  nth_error labels i = Some l ->
  find (fun item => any_keyword (snd item) (lower l)) ANIMAL_BUCKETS = Some (b, ks) ->
  (forall idx, In idx (top20 probs) -> idx < List.length labels) ->
  exists rest, bucketize probs labels = Ok ((b, p) :: rest).
Proof.
  intros Hi El F R. rewrite (bucketize_ok probs labels R).
  pose proof Hi as [Ei Top].
  destruct (top20_head probs i p Ei Top) as [rest Et].
  destruct (find_filter _ _ _ F) as [items Ef].
  assert (Hits : exists hs, hits probs labels (top20 probs) = (b, p) :: hs).
  { rewrite Et. cbn [hits]. rewrite El, Ei. unfold hits_of. rewrite Ef.
    cbn [map fst]. eexists. reflexivity. }
  destruct Hits as [hs Eh].
  assert (Bound : forall b' s, In (b', s) (found_of probs labels) -> ltb p s = false).
  { intros b' s Hin. destruct (In_found probs labels b' s Hin) as [idx [_ M]].
    now apply (single_highest_bound probs labels i p idx b' s). }
  assert (Head : exists rest', found_of probs labels = (b, p) :: rest').
  { unfold found_of. rewrite Eh. cbn [keep_all fold_left fst snd].
    change (keep_max [] b p) with [(b, p)].
    apply keep_all_head. intros b' s Hin.
    assert (Hin' : In (b', s) (hits probs labels (top20 probs)))
      by (rewrite Eh; now right).
    apply In_hits in Hin'. destruct Hin' as [idx [l' [ks' [_ P]]]].
    apply (single_highest_bound probs labels i p idx b' s); [assumption |].
    now exists l', ks'. }
  destruct Head as [rest' Ef']. rewrite Ef' in *.
  exists (sorted snd true rest'). f_equal.
  apply sorted_reverse_head. intros [b' s] Hin. cbn [snd].
  apply (Bound b' s). now right.
Qed.

End FirstFacts.

(** ** More on [predict] *)

Section Further.
Variables Image Tensor Net : Type.
Variable preprocess : Image -> Tensor.
Variable forward : Net -> Tensor -> list R.
Context {AS : @ArgSort R Score_R}.

Local Abbreviation run src := (predict Image Tensor Net preprocess forward src).

(** X8. When one class has a probability strictly above all others and its
    label matches some bucket, the result starts with the first bucket of the
    table, in table order, that the label matches, under the probability of
    that class. *)
Theorem predict_first_entry (src : option (list string)) (img : Image)
    (self : AnimalClassifier Net) (net : Net) (probs : list R)
    (i : nat) (p : R) (l b : string) (ks : list string) :
  model Net self = Some net ->
  softmax (forward net (preprocess img)) = Ok probs ->
  nth_error probs i = Some p ->
  (forall j q, j <> i -> nth_error probs j = Some q -> (q < p)%R) ->
  nth_error (get_labels src probs) i = Some l ->
  find (fun item => any_keyword (snd item) (lower l)) ANIMAL_BUCKETS = Some (b, ks) ->
  List.length probs <= List.length (get_labels src probs) ->
  exists rest, run src img self = (Ok ((b, p) :: rest), self).
Proof.
  intros Em Es Ep Top El F Len.
  rewrite (predict_loaded _ _ _ preprocess forward src img self net probs Em Es).
  destruct (bucketize_first probs (get_labels src probs) i p l b ks) as [rest E];
    try assumption.
  - split; [assumption |]. intros j q Nj Eq. apply Rltb_true. now apply (Top j).
  - intros idx Hin. apply top20_bound in Hin. lia.
  - exists rest. now rewrite E.
Qed.

(** X9. The keyword "ox" of bucket "Cattle" occurs in the keyword "fox" of
    bucket "Canine": whenever a selected class has a label with "fox" in it,
    the result has an entry for "Canine" and one for "Cattle", each with a
    score that is at least the probability of that class. *)
Theorem predict_fox_is_cattle (src : option (list string)) (img : Image)
    (self : AnimalClassifier Net) (net : Net) (probs : list R)
    (res : list (string * R)) (idx : nat) (l : string) (p : R) :
  model Net self = Some net ->
  softmax (forward net (preprocess img)) = Ok probs ->
  fst (run src img self) = Ok res ->
  In idx (top20 probs) ->
  nth_error (get_labels src probs) idx = Some l ->
  nth_error probs idx = Some p ->
  contains "fox" (lower l) = true ->
  exists s1 s2,
    In ("Canine"%string, s1) res /\ In ("Cattle"%string, s2) res /\
    (p <= s1)%R /\ (p <= s2)%R.
Proof.
  intros Em Es E Hidx El Ep C.
  rewrite (predict_loaded _ _ _ preprocess forward src img self net probs Em Es) in E.
  cbn [fst] in E.
  assert (Ox : contains "ox" (lower l) = true)
    by (apply contains_trans with "fox"%string; [reflexivity | assumption]).
  assert (M1 : matches probs (get_labels src probs) idx "Canine" p).
  { exists l. eexists. split; [exact El |]. split; [exact Ep |].
    split; [do 11 right; left; reflexivity |].
    apply existsb_exists. exists "fox"%string. split; [right; now left | exact C]. }
  assert (M2 : matches probs (get_labels src probs) idx "Cattle" p).
  { exists l. eexists. split; [exact El |]. split; [exact Ep |].
    split; [do 4 right; left; reflexivity |].
    apply existsb_exists. exists "ox"%string. split; [right; now left | exact Ox]. }
  destruct (result_covers _ _ res _ p idx E Hidx M1) as [s1 H1].
  destruct (result_covers _ _ res _ p idx E Hidx M2) as [s2 H2].
  exists s1, s2. split; [assumption |]. split; [assumption |]. split.
  - apply Rltb_false. exact (result_upper _ _ res _ s1 p idx E H1 Hidx M1).
  - apply Rltb_false. exact (result_upper _ _ res _ s2 p idx E H2 Hidx M2).
Qed.

(** X10. [predict] returns a list exactly when the model is loaded, it has
    at least one class, and every selected class has a label. *)
Theorem predict_returns_iff (src : option (list string)) (img : Image)
    (self : AnimalClassifier Net) :
  (exists res, fst (run src img self) = Ok res) <->
  (exists net probs,
     model Net self = Some net /\
     forward net (preprocess img) <> [] /\
     softmax (forward net (preprocess img)) = Ok probs /\
     forall idx, In idx (top20 probs) ->
                 idx < List.length (get_labels src probs)).
Proof.
  split.
  - intros [res E].
    destruct (predict_inv _ _ _ preprocess forward src img self res E)
      as [net [probs [Em [Es Eb]]]].
    exists net, probs. split; [assumption |].
    split; [exact (softmax_nonempty _ _ Es) |]. split; [assumption |].
    intros idx Hin. now apply (bucketize_inv probs (get_labels src probs) res Eb).
  - intros [net [probs [Em [_ [Es R]]]]].
    rewrite (predict_returns _ _ _ preprocess forward src img self net probs Em Es R).
    now eexists.
Qed.

(** X11. What [predict] raises: [TypeError] on a classifier that holds no
    model, [ValueError] when the model has no class, [IndexError] when a
    selected class has no label. *)
Theorem predict_raises (src : option (list string)) (img : Image)
    (self : AnimalClassifier Net) :
  (model Net self = None -> run src img self = (Raise TypeError, self)) /\
  (forall net, model Net self = Some net ->
     forward net (preprocess img) = [] ->
     run src img self = (Raise ValueError, self)) /\
  (forall net probs idx, model Net self = Some net ->
     softmax (forward net (preprocess img)) = Ok probs ->
     In idx (top20 probs) -> List.length (get_labels src probs) <= idx ->
     run src img self = (Raise IndexError, self)).
Proof.
  split; [| split].
  - intro Em. unfold predict. now rewrite Em.
  - intros net Em El. unfold predict. now rewrite Em, El.
  - intros net probs idx Em Es Hin L.
    rewrite (predict_loaded _ _ _ preprocess forward src img self net probs Em Es).
    unfold bucketize.
    now rewrite (scan_topk_missing probs _ (top20 probs) [] idx Hin L).
Qed.

(** X12. A returned list is empty exactly when no selected class has a label
    that matches a bucket. *)
Theorem predict_empty_iff (src : option (list string)) (img : Image)
    (self : AnimalClassifier Net) (net : Net) (probs : list R)
    (res : list (string * R)) :
  model Net self = Some net ->
  softmax (forward net (preprocess img)) = Ok probs ->
  fst (run src img self) = Ok res ->
  res = [] <->
  (forall idx b p, In idx (top20 probs) ->
     ~ matches probs (get_labels src probs) idx b p).
Proof.
  intros Em Es E.
  rewrite (predict_loaded _ _ _ preprocess forward src img self net probs Em Es) in E.
  cbn [fst] in E. split.
  - intros -> idx b p Hin M.
    destruct (result_covers _ _ [] b p idx E Hin M) as [s []].
  - intro None. destruct (bucketize_inv _ _ res E) as [-> _].
    now rewrite result_empty.
Qed.

End Further.

(** ** The two-class model again *)

Definition zebra_labels : list string := ["zebra"; "tabby"]%string.
Definition fox_labels : list string := ["red fox"; "tabby"]%string.

Lemma predict_first_entry_witness :
  exists p rest,
    demo_predict (Some zebra_labels) =
    (Ok (("Horse"%string, p) :: rest), demo_self).
Proof.
  destruct demo_softmax as [p [q [Es L]]]. exists p.
  apply (predict_first_entry unit unit (list R) (fun img => img) demo_forward
           (AS := Stable_ArgSort) (Some zebra_labels) tt demo_self [1; 0]%R [p; q]
           0 p "zebra"%string "Horse"%string ["horse"; "zebra"; "donkey"]%string
           eq_refl Es eq_refl).
  - intros [| [| j]] r Nj Er; [congruence | | destruct j; discriminate].
    injection Er as <-. exact L.
  - reflexivity.
  - vm_compute. reflexivity.
  - cbn. lia.
Defined.

Lemma predict_fox_is_cattle_witness :
  exists res s1 s2,
    fst (demo_predict (Some fox_labels)) = Ok res /\
    In ("Canine"%string, s1) res /\ In ("Cattle"%string, s2) res.
Proof.
  destruct demo_softmax as [p [q [Es _]]].
  pose proof (f_equal fst (demo_returns fox_labels p q Es eq_refl)) as E.
  cbn [fst] in E.
  destruct (predict_fox_is_cattle unit unit (list R) (fun img => img) demo_forward
              (AS := Stable_ArgSort) (Some fox_labels) tt demo_self [1; 0]%R [p; q]
              _ 0 "red fox"%string p eq_refl Es E)
    as [s1 [s2 [H1 [H2 _]]]].
  - apply demo_top20. lia.
  - reflexivity.
  - reflexivity.
  - reflexivity.
  - eexists. exists s1, s2. split; [exact E |]. split; assumption.
Defined.

Lemma predict_empty_iff_witness :
  exists res, fst (demo_predict (Some plain_labels)) = Ok res /\ res = [].
Proof.
  destruct demo_softmax as [p [q [Es _]]].
  pose proof (f_equal fst (demo_returns plain_labels p q Es eq_refl)) as E.
  cbn [fst] in E.
  eexists. split; [exact E |].
  apply (proj2 (predict_empty_iff unit unit (list R) (fun img => img) demo_forward
                  (AS := Stable_ArgSort) (Some plain_labels) tt demo_self
                  [1; 0]%R [p; q] _ eq_refl Es E)).
  intros idx b s Hin [l [ks [El [_ [Hb Hk]]]]].
  apply demo_top20 in Hin. cbn [get_labels] in El.
  apply existsb_exists in Hk. destruct Hk as [k [Hk C]].
  assert (N : no_keyword l = true).
  { destruct idx as [| [| idx]]; [| | lia]; cbn in El; injection El as <-;
      vm_compute; reflexivity. }
  rewrite (no_keyword_spec l N b ks k Hb Hk) in C. discriminate.
Defined.

Example fox_fills_two_buckets :
  bucketize (H0 := Stable_ArgSort) [1 # 4; 3 # 4]%Q ["tabby"; "red fox"]%string
  = Ok [("Cattle"%string, 3 # 4); ("Canine"%string, 3 # 4);
        ("Cat"%string, 1 # 4)]%Q.
Proof. vm_compute. reflexivity. Qed.

(** ** Keywords that decide nothing *)

Lemma any_keyword_filter (keep : string -> bool) (ks : list string) (label : string) :
  (forall k, In k ks -> keep k = false ->
     exists k', In k' ks /\ keep k' = true /\ contains k' k = true) ->
  any_keyword (filter keep ks) label = any_keyword ks label.
Proof.
  intro Cover. unfold any_keyword.
  destruct (existsb (fun k => contains k label) ks) eqn:E.
  - apply existsb_exists in E. destruct E as [k [Hk C]].
    apply existsb_exists. destruct (keep k) eqn:K.
    + exists k. split; [apply filter_In; now split | assumption].
    + destruct (Cover k Hk K) as [k' [Hk' [K' C']]].
      exists k'. split; [apply filter_In; now split |].
      now apply contains_trans with k.
  - apply not_true_is_false. intro F. apply existsb_exists in F.
    destruct F as [k [Hk C]]. apply filter_In in Hk. destruct Hk as [Hk _].
    rewrite <- not_true_iff_false in E. apply E.
    apply existsb_exists. now exists k.
Qed.

(** The keywords that contain another keyword of their own bucket. *)
Definition redundant : list string := ["king penguin"; "goldfish"; "beetle"]%string.

Definition essential (k : string) : bool := negb (existsb (String.eqb k) redundant).

Lemma redundant_covered :
  forallb
    (fun item =>
       forallb
         (fun k => essential k ||
                   existsb (fun k' => essential k' && contains k' k) (snd item))
         (snd item))
    ANIMAL_BUCKETS = true.
Proof. vm_compute. reflexivity. Qed.

(** X13. Three keywords of the table never decide a match: "king penguin",
    "goldfish" and "beetle" each contain a keyword of their own bucket
    ("penguin", "fish", "bee"), so for every label each bucket matches with
    them exactly when it matches without them. *)
Theorem redundant_keywords (b : string) (ks : list string) (label : string) :
  In (b, ks) ANIMAL_BUCKETS ->
  any_keyword (filter essential ks) label = any_keyword ks label.
Proof.
  intro Hb. apply any_keyword_filter. intros k Hk K.
  pose proof redundant_covered as T. rewrite forallb_forall in T.
  specialize (T _ Hb). cbn [snd] in T. rewrite forallb_forall in T.
  specialize (T k Hk). rewrite K in T. cbn [orb] in T.
  apply existsb_exists in T. destruct T as [k' [Hk' A]].
  apply andb_true_iff in A. destruct A as [K' C].
  now exists k'.
Qed.

Lemma redundant_keywords_witness :
  any_keyword ["fish"; "shark"; "ray"]%string "goldfish bowl" =
  any_keyword ["fish"; "shark"; "ray"; "goldfish"]%string "goldfish bowl".
Proof.
  apply (redundant_keywords "Fish" ["fish"; "shark"; "ray"; "goldfish"]%string).
  do 14 right. left. reflexivity.
Defined.

(** ** The dict across the loop *)

Section LoopFacts.
Context {S : Type} `{Score S}.

Lemma keys_keep_all (hs : list (string * S)) (found : @dict S) :
  exists added, keys (keep_all hs found) = keys found ++ added.
Proof.
  revert found. induction hs as [| [b s] hs IH]; intro found; cbn [keep_all fold_left].
  - exists []. now rewrite app_nil_r.
  - destruct (IH (keep_max found b s)) as [added E].
    unfold keep_all in E. cbn [fst snd]. rewrite E, keys_keep_max.
    destruct (dict_get found b).
    + now exists added.
    + exists (b :: added). now rewrite <- app_assoc.
Qed.

(** X14. The loop over the selected classes (lines 86-94) only adds to the
    dict it starts from: the keys it had stay, in their order and ahead of
    the new ones, and the score under each of them does not go down. *)
Theorem scan_topk_grows (probs : list S) (labels : list string) (topk : list nat)
    (found found' : @dict S) :
  scan_topk probs labels topk found = Ok found' ->
  (exists added, map fst found' = map fst found ++ added) /\
  (forall k v, dict_get found k = Some v ->
     exists v', dict_get found' k = Some v' /\ ltb v' v = false).
Proof.
  intro E. rewrite (scan_topk_hits _ _ _ _ _ E). split.
  - apply keys_keep_all.
  - intros k v G. apply keep_all_grows. exact G.
Qed.

End LoopFacts.

Lemma scan_topk_grows_witness :
  (exists added,
     map fst [("Cat"%string, 1 # 2); ("Horse"%string, 3 # 4)]%Q =
     map fst [("Cat"%string, 1 # 2)]%Q ++ added) /\
  (forall k v, dict_get [("Cat"%string, 1 # 2)]%Q k = Some v ->
     exists v',
       dict_get [("Cat"%string, 1 # 2); ("Horse"%string, 3 # 4)]%Q k = Some v' /\
       ltb v' v = false).
Proof.
  apply (scan_topk_grows [1 # 4; 3 # 4]%Q ["tabby"; "zebra"]%string [1; 0]
           [("Cat"%string, 1 # 2)]%Q).
  vm_compute. reflexivity.
Defined.

Example reverse_sort_keeps_ties_in_order :
  sorted snd true
    [("a"%string, 1 # 2); ("b"%string, 3 # 4); ("c"%string, 2 # 4);
     ("d"%string, 3 # 4)]%Q
  = [("b"%string, 3 # 4); ("d"%string, 3 # 4); ("a"%string, 1 # 2);
     ("c"%string, 2 # 4)]%Q.
Proof. vm_compute. reflexivity. Qed.
